(** * Battleships engine: the battlefield, ship placement and random arrangement

    A shallow embedding of [src/battlefield.js] and
    [src/battlefieldinterfaces/randominterface.js].

    Ship objects are shared and mutated in place (the collection, the fields
    and the callers all hold references to the same object), so the model
    keeps them in one object store, [heap], addressed by the ship's id; a
    reference to a ship is its id.  Field objects are only reachable through
    the [_fields] map, so they are stored there by value; the map is a
    finite map by key, which does not record the order of insertion.
    Coordinates are mathematical integers; a component of a ship's
    [position] can also be [null], the unplaced marker written by
    [random()].  The classes Ship and Field and the method
    [_checkShipCollision] are not among the sources: Ship and Field are
    modelled from the spec, the method is a parameter of [random]. *)

From Stdlib Require Import Ascii.
From stdpp Require Import base numbers list strings pretty functions gmap fin_maps.

(** ** JavaScript values the code handles *)

(** A component of a position array: a number or [null]. *)
Inductive jsnum : Type :=
  | null
  | num (z : Z).

(** [ToNumber] as applied by the relational operators: [null] counts as 0. *)
Definition toNumber (v : jsnum) : Z :=
  match v with
  | null => 0%Z
  | num z => z
  end.

(** Primitive values. *)
Inductive jsprim : Type :=
  | JUndefined
  | JNull
  | JBool (b : bool)
  | JNumber (z : Z)
  | JString (s : string).

(** What a caller can pass as the marker [type] of [markAs]: a primitive,
    or an object, of which only the primitive it converts to matters here
    (['missed'] and [new String( 'missed' )] both convert to the string
    ['missed']).  An object whose conversion raises makes the comparison
    raise before [markAs] does anything; such arguments are left out. *)
Inductive jsvalue : Type :=
  | JPrim (p : jsprim)
  | JObject (converted : jsprim).

Coercion JPrim : jsprim >-> jsvalue.

(** [ToPrimitive], as the loose equality applies it to its operand. *)
Definition toPrimitive (v : jsvalue) : jsprim :=
  match v with
  | JPrim p => p
  | JObject converted => converted
  end.

(** [v == 'missed'] (loose equality against the string literal).  An object
    is first converted to a primitive.  A string is compared as a string.
    A number or a boolean is compared with [ToNumber('missed')], which is
    NaN and equals nothing.  [null] and [undefined] are loosely equal only
    to each other. *)
Definition looseEq_missed (v : jsvalue) : bool :=
  match toPrimitive v with
  | JString s => bool_decide (s = "missed")
  | JNumber _ => false
  | JBool _ => false
  | JNull => false
  | JUndefined => false
  end.

(** A reference to a ship object: its id (a number handed out by [uid()]). *)
Abbreviation ShipId := nat.

(** [position.join( 'x' )] on a pair of integers: both components printed in
    decimal, with an ['x'] in between. *)
Definition join_x (position : Z * Z) : string :=
  pretty position.1 +:+ "x" +:+ pretty position.2.

(** ** Ship *)

Module Ship.

(** Modelled from the spec: the class Ship (src/ship.js is not among the
    sources).  A ship has a fixed positive length, a head position (the pair
    [null, null] while unplaced), an orientation ([false]: extends in +x,
    [true]: extends in +y) and a collision flag. *)
Record t : Type := mk {
  length : positive;
  position : jsnum * jsnum;
  isRotated : bool;
  isCollision : bool
}.

(** Assignments to one property of the ship object. *)
Definition set_position (p : jsnum * jsnum) (s : t) : t :=
  mk (length s) p (isRotated s) (isCollision s).

Definition set_isRotated (r : bool) (s : t) : t :=
  mk (length s) (position s) r (isCollision s).

Definition set_isCollision (c : bool) (s : t) : t :=
  mk (length s) (position s) (isRotated s) c.

(** Modelled from the spec: Ship.hasPosition, whether the unplaced marker
    has been replaced by a real coordinate. *)
Definition hasPosition (s : t) : bool :=
  match position s with
  | (num _, num _) => true
  | _ => false
  end.

(** Modelled from the spec: Ship.getCoordinates, the [length] consecutive
    cells from the head along the orientation axis; no cell when unplaced. *)
Definition getCoordinates (s : t) : list (Z * Z) :=
  match position s with
  | (num x, num y) =>
      (λ i : nat, if isRotated s then (x, (y + Z.of_nat i)%Z)
                  else ((x + Z.of_nat i)%Z, y))
        <$> seq 0 (Pos.to_nat (length s))
  | _ => []
  end.

(** Modelled from the spec: Ship.tail, the last cell of the coordinates
    ([None] stands for [undefined]). *)
Definition tail (s : t) : option (Z * Z) := last (getCoordinates s).

(** Modelled from the spec: Ship.reset, back to unplaced, unrotated and
    without collision. *)
Definition reset (s : t) : t := mk (length s) (null, null) false false.

End Ship.

(** ** Field *)

Module Field.

(** Modelled from the spec: the marker of a Field, one of none, missed and
    hit. *)
Inductive Marker : Type :=
  | unmarked
  | missed
  | hit.

(** Modelled from the spec: the class Field (src/field.js is not among the
    sources).  A cell records its coordinate, the ships on it (references,
    in the order they arrived) and its marker. *)
Record t : Type := mk {
  position : Z * Z;
  ships : list ShipId;
  marker : Marker
}.

(** Modelled from the spec: [new Field( position )], nobody on it and no
    marker. *)
Definition new (position : Z * Z) : t := mk position [] unmarked.

(** Modelled from the spec: Field.id, the key of the field's coordinate. *)
Definition id (f : t) : string := join_x (position f).

(** Modelled from the spec: Field.getShip, the occupant with that id or
    [undefined]. *)
Definition getShip (f : t) (sid : ShipId) : option ShipId :=
  if decide (sid ∈ ships f) then Some sid else None.

(** Modelled from the spec: Field.addShip, appends the ship unless it is
    already an occupant. *)
Definition addShip (sid : ShipId) (f : t) : t :=
  if decide (sid ∈ ships f) then f
  else mk (position f) (ships f ++ [sid]) (marker f).

(** Modelled from the spec: Field.removeShip, removes by id and does
    nothing when the ship is not there. *)
Definition removeShip (sid : ShipId) (f : t) : t :=
  mk (position f) (filter (λ i, i ≠ sid) (ships f)) (marker f).

(** Modelled from the spec: Field.length, the number of occupants. *)
Definition length (f : t) : nat := List.length (ships f).

(** Modelled from the spec: Field.markAsMissed and Field.markAsHit, which
    overwrite the marker. *)
Definition markAsMissed (f : t) : t := mk (position f) (ships f) missed.

(** Modelled from the spec: Field.markAsHit. *)
Definition markAsHit (f : t) : t := mk (position f) (ships f) hit.

End Field.

(** ** Battlefield *)

(** What [this.fire( ... )] emits. *)
Inductive Event : Type :=
  | EvMissed (position : Z * Z)
  | EvHit (position : Z * Z)
  | EvShipMoved (ship : ShipId).

(** The battlefield object together with the ship objects it refers to.
    [shipsSchema] plays no part in the operations below and is left out. *)
Record Battlefield : Type := mkBattlefield {
  size : Z;
  isLocked : bool;
  shipsCollection : list ShipId;
  _fields : gmap string Field.t;
  heap : ShipId → Ship.t;
  fired : list Event
}.

Definition set_fields (fs : gmap string Field.t) (b : Battlefield) : Battlefield :=
  mkBattlefield (size b) (isLocked b) (shipsCollection b) fs (heap b) (fired b).

Definition set_heap (h : ShipId → Ship.t) (b : Battlefield) : Battlefield :=
  mkBattlefield (size b) (isLocked b) (shipsCollection b) (_fields b) h (fired b).

Definition fire (e : Event) (b : Battlefield) : Battlefield :=
  mkBattlefield (size b) (isLocked b) (shipsCollection b) (_fields b) (heap b)
    (fired b ++ [e]).

(** [new Battlefield( size )] with the given ship objects around. *)
Definition newBattlefield (size : Z) (h : ShipId → Ship.t) : Battlefield :=
  mkBattlefield size false [] ∅ h [].

(** [getField( position )]. *)
Definition getField (b : Battlefield) (position : Z * Z) : option Field.t :=
  _fields b !! join_x position.

(** [_getFieldOrCreate( position )] on the index alone: the field found or
    created, and the index with it. *)
Definition _getFieldOrCreate (fs : gmap string Field.t) (position : Z * Z)
  : Field.t * gmap string Field.t :=
  match fs !! join_x position with
  | Some field => (field, fs)
  | None =>
      let field := Field.new position in
      (field, <[Field.id field := field]> fs)
  end.

(** [markAsMissed( position )]: the field object is changed in place, which
    here is a store under the key it lives at. *)
Definition markAsMissed (b : Battlefield) (position : Z * Z) : Battlefield :=
  let '(field, fs) := _getFieldOrCreate (_fields b) position in
  fire (EvMissed position)
    (set_fields (<[join_x position := Field.markAsMissed field]> fs) b).

(** [markAsHit( position )]. *)
Definition markAsHit (b : Battlefield) (position : Z * Z) : Battlefield :=
  let '(field, fs) := _getFieldOrCreate (_fields b) position in
  fire (EvHit position)
    (set_fields (<[join_x position := Field.markAsHit field]> fs) b).

(** [markAs( position, type )]. *)
Definition markAs (b : Battlefield) (position : Z * Z) (type : jsvalue)
  : Battlefield :=
  if looseEq_missed type then markAsMissed b position
  else markAsHit b position.

(** [c > max ? max : c]. *)
Definition clamp (c : jsnum) (max : Z) : jsnum :=
  if (toNumber c >? max)%Z then num max else c.

(** One turn of the first loop of [moveShip]: the ship leaves the field at
    [pos].  A field on which it was alone is deleted, otherwise the ship is
    taken off the field's list. *)
Definition vacate (ship : ShipId) (fs : gmap string Field.t) (pos : Z * Z)
  : gmap string Field.t :=
  match fs !! join_x pos with
  | Some field =>
      match Field.getShip field ship with
      | Some _ =>
          if Field.length field =? 1 then delete (join_x pos) fs
          else <[join_x pos := Field.removeShip ship field]> fs
      | None => fs
      end
  | None => fs
  end.

(** One turn of the second loop of [moveShip]:
    [this._getFieldOrCreate( pos ).addShip( ship )]. *)
Definition occupy (ship : ShipId) (fs : gmap string Field.t) (pos : Z * Z)
  : gmap string Field.t :=
  let '(field, fs') := _getFieldOrCreate fs pos in
  <[join_x pos := Field.addShip ship field]> fs'.

(** [moveShip( ship, position, isRotated )]; [isRotated = None] is the
    argument left [undefined]. *)
Definition moveShip (b : Battlefield) (ship : ShipId)
    (position : jsnum * jsnum) (isRotated : option bool) : Battlefield :=
  if isLocked b then b
  else
    let s := heap b ship in
    let isRotated :=
      match isRotated with
      | None => Ship.isRotated s
      | Some r => r
      end in
    let max := (size b - Z.pos (Ship.length s))%Z in
    let '(x, y) := position in
    let '(x, y) := if isRotated then (x, clamp y max) else (clamp x max, y) in
    let fs1 := foldl (vacate ship) (_fields b) (Ship.getCoordinates s) in
    let s' := Ship.set_position (x, y) (Ship.set_isRotated isRotated s) in
    let fs2 := foldl (occupy ship) fs1 (Ship.getCoordinates s') in
    fire (EvShipMoved ship) (set_fields fs2 (set_heap (<[ship := s']> (heap b)) b)).

(** [rotateShip( ship )]. *)
Definition rotateShip (b : Battlefield) (ship : ShipId) : Battlefield :=
  moveShip b ship (Ship.position (heap b ship))
    (Some (negb (Ship.isRotated (heap b ship)))).

(** [isShipInBound( ship )].  The four tests are joined by [&&], so the tail
    is read only when the head's x is not negative; [None] is the TypeError
    raised by reading a component of an [undefined] tail. *)
Definition isShipInBound (b : Battlefield) (ship : ShipId) : option bool :=
  let s := heap b ship in
  if (0 <=? toNumber (Ship.position s).1)%Z then
    match Ship.tail s with
    | None => None
    | Some tail =>
        Some ((tail.1 <? size b)%Z &&
              (0 <=? toNumber (Ship.position s).2)%Z && (tail.2 <? size b)%Z)
    end
  else Some false.

(** [reset()]. *)
Definition reset (b : Battlefield) : Battlefield :=
  let h := foldl (λ h ship, <[ship := Ship.reset (h ship)]> h) (heap b)
             (shipsCollection b) in
  set_heap h (set_fields ∅ b).

(** [[ Symbol.iterator ]()]: the fields of the index.  The Map yields them
    in the order of insertion, which the index here does not record: the
    list has the right fields, each once, in an order of its own. *)
Definition iterate (b : Battlefield) : list Field.t :=
  (map_to_list (_fields b)).*2.

(** [validateShips( ships )].  [every] stops at the first ship that fails
    the test [!ship.isCollision && this.isShipInBound( ship )]; [None] is the
    TypeError [isShipInBound] raises. *)
Fixpoint validateShips (b : Battlefield) (ships : list ShipId) : option bool :=
  match ships with
  | [] => Some true
  | ship :: ships' =>
      if Ship.isCollision (heap b ship) then Some false
      else
        match isShipInBound b ship with
        | None => None
        | Some true => validateShips b ships'
        | Some false => Some false
        end
  end.

(** The listener the constructor registers on the collection's ['add']
    event: a ship that comes with a position is moved to it. *)
Definition onShipAdded (b : Battlefield) (ship : ShipId) : Battlefield :=
  if Ship.hasPosition (heap b ship)
  then moveShip b ship (Ship.position (heap b ship))
         (Some (Ship.isRotated (heap b ship)))
  else b.

(** ** Unique ids *)

(** [uid()]: the closure keeps [next], which starts at 1; a call returns it
    and leaves [next + 1] behind.  The counter is a natural number here (the
    source counts in doubles, exact up to 2^53). *)
Definition uid_first : nat := 1.

Definition uid (next : nat) : nat * nat := (next, S next).

(** [n] successive calls of [uid()]: the ids handed out, and the counter
    left. *)
Fixpoint uids (n : nat) (next : nat) : list nat * nat :=
  match n with
  | O => ([], next)
  | S n' =>
      let '(id, next1) := uid next in
      let '(ids, next2) := uids n' next1 in
      (id :: ids, next2)
  end.

(** ** Random arrangement *)

(** The method [_checkShipCollision] that [random()] calls is not in the
    sources.  It is a parameter of the model: a function of the battlefield
    and the ship that returns whether it reports a collision and the
    battlefield it leaves, or raises ([None]). *)
Definition CollisionCheck : Type :=
  Battlefield → ShipId → option (bool * Battlefield).

(** The first loop of [random()] and the clearing of the index. *)
Definition unplaceAll (b : Battlefield) : Battlefield :=
  let h := foldl (λ h ship, <[ship := Ship.set_position (null, null) (h ship)]> h)
             (heap b) (shipsCollection b) in
  set_fields ∅ (set_heap h b).

(** The injected random source: [rnd n min max] is what the [n]-th call made,
    [random( min, max )], returns. *)
Definition in_range (rnd : nat → Z → Z → Z) : Prop :=
  ∀ n min max, (min ≤ max)%Z → (min ≤ rnd n min max ≤ max)%Z.

(** The [while( !done )] loop for one ship, run for at most [fuel] turns;
    [n] counts the draws made so far.  The result carries the outcome of
    every collision check made, in order; [None] when the loop does not
    return: the fuel runs out or the check raises. *)
Fixpoint placeShip (_checkShipCollision : CollisionCheck) (fuel : nat)
    (rnd : nat → Z → Z → Z) (n : nat) (b : Battlefield) (ship : ShipId)
  : option (list (ShipId * bool) * nat * Battlefield) :=
  match fuel with
  | O => None
  | S fuel' =>
      let isRotated := negb (rnd n 0 1 =? 0)%Z in
      let x := rnd (n + 1) 0%Z (size b - 1)%Z in
      let y := rnd (n + 2) 0%Z (size b - 1)%Z in
      let b1 := moveShip b ship (num x, num y) (Some isRotated) in
      match _checkShipCollision b1 ship with
      | Some (collision, b2) =>
          if collision then
            match placeShip _checkShipCollision fuel' rnd (n + 3) b2 ship with
            | Some (log, n', b') => Some ((ship, true) :: log, n', b')
            | None => None
            end
          else Some ([(ship, false)], n + 3, b2)
      | None => None
      end
  end.

(** The loop over [getReversed()]. *)
Fixpoint placeShips (_checkShipCollision : CollisionCheck) (fuel : nat)
    (rnd : nat → Z → Z → Z) (n : nat) (b : Battlefield) (ships : list ShipId)
  : option (list (ShipId * bool) * nat * Battlefield) :=
  match ships with
  | [] => Some ([], n, b)
  | ship :: ships' =>
      match placeShip _checkShipCollision fuel rnd n b ship with
      | Some (log, n', b') =>
          match placeShips _checkShipCollision fuel rnd n' b' ships' with
          | Some (log', n'', b'') => Some (log ++ log', n'', b'')
          | None => None
          end
      | None => None
      end
  end.

(** [random()]: the checks made and the battlefield it leaves, when it
    returns within [fuel] turns of every ship's loop. *)
Definition random (_checkShipCollision : CollisionCheck) (fuel : nat)
    (rnd : nat → Z → Z → Z) (b : Battlefield)
  : option (list (ShipId * bool) * Battlefield) :=
  match placeShips _checkShipCollision fuel rnd 0 (unplaceAll b)
          (reverse (shipsCollection b)) with
  | Some (log, _, b') => Some (log, b')
  | None => None
  end.

(** ** Vocabulary of the statements *)

(** The component of the head on the axis the ship extends along, and the
    other one. *)
Definition axisComponent (s : Ship.t) : jsnum :=
  if Ship.isRotated s then (Ship.position s).2 else (Ship.position s).1.

Definition crossComponent (s : Ship.t) : jsnum :=
  if Ship.isRotated s then (Ship.position s).1 else (Ship.position s).2.

(** The ship as [moveShip] commits it: orientation defaulted, head clamped
    from above on the orientation axis ([moveShip_unlocked] relates it to
    [moveShip]). *)
Definition committed (b : Battlefield) (ship : ShipId)
    (position : jsnum * jsnum) (isRotated : option bool) : Ship.t :=
  let s := heap b ship in
  let r := default (Ship.isRotated s) isRotated in
  let max := (size b - Z.pos (Ship.length s))%Z in
  Ship.set_position
    (if r then (position.1, clamp position.2 max)
     else (clamp position.1 max, position.2))
    (Ship.set_isRotated r s).

(** [free_of c s]: the character [c] does not occur in [s]. *)
Fixpoint free_of (c : ascii) (s : string) : Prop :=
  match s with
  | EmptyString => True
  | String a s' => a ≠ c ∧ free_of c s'
  end.

(** What the first loop does to the entry of a cell the ship leaves
    ([vacate_lookup] relates it to [vacate]). *)
Definition vacated (ship : ShipId) (o : option Field.t) : option Field.t :=
  match o with
  | Some f =>
      if decide (ship ∈ Field.ships f) then
        if Field.length f =? 1 then None else Some (Field.removeShip ship f)
      else Some f
  | None => None
  end.

(** What the second loop does to the entry of a cell the ship takes
    ([occupy_lookup] relates it to [occupy]). *)
Definition occupied (ship : ShipId) (pos : Z * Z) (o : option Field.t)
  : option Field.t :=
  Some (Field.addShip ship (default (Field.new pos) o)).

(** The entries of the index whose field lists the ship as an occupant. *)
Definition fieldsOf (b : Battlefield) (ship : ShipId) : gmap string Field.t :=
  filter (λ kf, ship ∈ Field.ships kf.2) (_fields b).

(** The index agrees with the ship: it is registered on cells of its current
    coordinates only.  This is what routing every change of a ship through
    the battlefield maintains. *)
Definition registered_on_own_cells (b : Battlefield) (ship : ShipId) : Prop :=
  ∀ k f, _fields b !! k = Some f → ship ∈ Field.ships f →
         k ∈ join_x <$> Ship.getCoordinates (heap b ship).

(** Two ship records that differ at most in the collision flag. *)
Definition same_placement (s s' : Ship.t) : Prop :=
  Ship.length s' = Ship.length s ∧
  Ship.position s' = Ship.position s ∧
  Ship.isRotated s' = Ship.isRotated s.

(** Modelled from the spec: of the absent [_checkShipCollision] the spec
    says that a collision check changes nothing but collision flags: it
    keeps the size, the lock, the collection and the length, position and
    orientation of every ship. *)
Definition check_keeps_placement (check : CollisionCheck) : Prop :=
  ∀ b ship collision b',
    check b ship = Some (collision, b') →
    size b' = size b ∧ isLocked b' = isLocked b ∧
    shipsCollection b' = shipsCollection b ∧
    ∀ i, same_placement (heap b i) (heap b' i).


(** The [moveShip] of one turn of the loop of [random()], with the draws
    numbered [m], [m + 1] and [m + 2]. *)
Definition attempt (rnd : nat → Z → Z → Z) (m : nat) (b : Battlefield)
    (ship : ShipId) : Battlefield :=
  moveShip b ship
    (num (rnd (m + 1) 0%Z (size b - 1)%Z), num (rnd (m + 2) 0%Z (size b - 1)%Z))
    (Some (negb (rnd m 0 1 =? 0)%Z)).

(** The last turn of a ship's loop, seen from the battlefield [b'] that
    [random()] leaves: an attempt, made on a battlefield of the same size and
    lock with the ship's length unchanged, whose check reported no collision
    and since which the ship has not been moved. *)
Definition accepted (check : CollisionCheck) (rnd : nat → Z → Z → Z)
    (b : Battlefield) (ship : ShipId) (b' : Battlefield) : Prop :=
  ∃ bk m b1,
    size bk = size b ∧ isLocked bk = isLocked b ∧
    Ship.length (heap bk ship) = Ship.length (heap b ship) ∧
    check (attempt rnd m bk ship) ship = Some (false, b1) ∧
    same_placement (heap b1 ship) (heap b' ship).

(** A ship that has a position and passes [isShipInBound]. *)
Definition placed_in_bounds (b : Battlefield) (ship : ShipId) : Prop :=
  Ship.hasPosition (heap b ship) = true ∧ isShipInBound b ship = Some true.

(** The checks [random()] logs: for each ship in turn some collisions and
    then one check without collision. *)
Fixpoint checks_of (ships : list ShipId) (ks : list nat)
  : list (ShipId * bool) :=
  match ships, ks with
  | ship :: ships', k :: ks' =>
      repeat (ship, true) k ++ [(ship, false)] ++ checks_of ships' ks'
  | _, _ => []
  end.

(** ** Sample boards *)

Definition ship_of_length (l : positive) : Ship.t :=
  Ship.mk l (null, null) false false.

(** Ships 1 and 2 have length 2, ship 3 has length 3, every other id length 1. *)
Definition sample_heap : ShipId → Ship.t :=
  λ i, match i with
       | 1 | 2 => ship_of_length 2
       | 3 => ship_of_length 3
       | _ => ship_of_length 1
       end.

Definition board5 : Battlefield := newBattlefield 5 sample_heap.

Definition locked_board5 : Battlefield :=
  mkBattlefield 5 true [1] ∅ sample_heap [].

(** Ship 4 (length 1) sits at [0, 0] and that field has been hit. *)
Definition marked_board : Battlefield :=
  markAsHit (moveShip board5 4 (num 0, num 0) None) (0, 0)%Z.

(** Ships 1 and 4 both sit at [0, 0] and that field has been hit. *)
Definition shared_marked_board : Battlefield :=
  markAsHit (moveShip (moveShip board5 1 (num 0, num 0) None) 4 (num 0, num 0) None)
    (0, 0)%Z.

(** The board of size 5 with ships 1 (length 2) and 3 (length 3). *)
Definition fleet_board : Battlefield :=
  mkBattlefield 5 false [1; 3] ∅ sample_heap [].

(** Ship 1 arrives with the head [4, 1], which the listener clamps to
    [3, 1]. *)
Definition arriving_board : Battlefield :=
  mkBattlefield 5 false [1] ∅
    (<[1 := Ship.mk 2 (num 4, num 1) false false]> sample_heap) [].

(** A random source that reads its answers off a script, brought into the
    range asked for. *)
Definition rnd_script (script : list Z) : nat → Z → Z → Z :=
  λ n min max, (min `max` (max `min` default 0 (script !! n)))%Z.

(** Ship 3 goes to [1, 2]; ship 1 is first drawn onto it at [2, 2], then
    rotated to [0, 0]. *)
Definition sample_script : list Z := [0; 1; 2; 0; 2; 2; 1; 0; 0]%Z.

(** Whether a cell of the ship's coordinates holds more than one occupant. *)
Definition overlaps (b : Battlefield) (ship : ShipId) : bool :=
  existsb (λ pos, match getField b pos with
                  | Some field => 1 <? Field.length field
                  | None => false
                  end)
    (Ship.getCoordinates (heap b ship)).

(** Another stand-in, without a bounds part: it reports a collision exactly
    for a ship that shares a cell, and changes nothing. *)
Definition overlap_check : CollisionCheck :=
  λ b ship, Some (overlaps b ship, b).


(** * Properties *)

(** ** The scenarios of the test suite *)

Example move_puts_ship_on_the_battlefield :
  Ship.getCoordinates (heap (moveShip board5 1 (num 1, num 1) None) 1)
  = [(1, 1)%Z; (2, 1)%Z].
Proof. reflexivity. Qed.

Example move_again_leaves_no_trace :
  let b := moveShip (moveShip board5 1 (num 1, num 1) None) 1 (num 2, num 2) None in
  Ship.getCoordinates (heap b 1) = [(2, 2)%Z; (3, 2)%Z] ∧
  getField b (1, 1)%Z = None ∧ getField b (2, 1)%Z = None.
Proof. vm_compute. done. Qed.

Example move_from_a_shared_field :
  let b := moveShip (moveShip (moveShip board5 1 (num 1, num 1) None)
                       2 (num 2, num 1) None) 1 (num 2, num 4) None in
  Ship.getCoordinates (heap b 1) = [(2, 4)%Z; (3, 4)%Z] ∧
  getField b (2, 1)%Z = Some (Field.mk (2, 1)%Z [2] Field.unmarked).
Proof. vm_compute. done. Qed.

Example hit_then_missed_is_missed :
  Field.marker <$> getField (markAsMissed (markAsHit board5 (0, 0)%Z) (0, 0)%Z)
                     (0, 0)%Z
  = Some Field.missed.
Proof. reflexivity. Qed.

(** ** Ships: coordinates and tail *)

Lemma getCoordinates_placed s x y :
  Ship.position s = (num x, num y) →
  Ship.getCoordinates s =
    (λ i : nat, if Ship.isRotated s then (x, (y + Z.of_nat i)%Z)
                else ((x + Z.of_nat i)%Z, y))
      <$> seq 0 (Pos.to_nat (Ship.length s)).
Proof. unfold Ship.getCoordinates. by intros ->. Qed.

Lemma getCoordinates_length s :
  Ship.hasPosition s = true →
  length (Ship.getCoordinates s) = Pos.to_nat (Ship.length s).
Proof.
  unfold Ship.hasPosition, Ship.getCoordinates.
  destruct (Ship.position s) as [[|x] [|y]]; try discriminate.
  intros _. by rewrite length_fmap, length_seq.
Qed.

Lemma getCoordinates_unplaced s :
  Ship.hasPosition s = false → Ship.getCoordinates s = [].
Proof.
  unfold Ship.hasPosition, Ship.getCoordinates.
  by destruct (Ship.position s) as [[|x] [|y]].
Qed.

Lemma tail_placed s x y :
  Ship.position s = (num x, num y) →
  Ship.tail s =
    Some (if Ship.isRotated s then (x, (y + Z.pos (Ship.length s) - 1)%Z)
          else ((x + Z.pos (Ship.length s) - 1)%Z, y)).
Proof.
  intros Hp. unfold Ship.tail. rewrite (getCoordinates_placed _ _ _ Hp).
  destruct (Pos2Nat.is_succ (Ship.length s)) as [m Hm].
  rewrite Hm, seq_S, fmap_app. simpl. rewrite last_snoc.
  assert (Z.of_nat m = Z.pos (Ship.length s) - 1)%Z as -> by lia.
  destruct (Ship.isRotated s); do 2 f_equal; lia.
Qed.

(** ** C5: a locked battlefield ignores [moveShip] *)

Lemma moveShip_locked b ship position isRotated :
  isLocked b = true → moveShip b ship position isRotated = b.
Proof. intros Hl. unfold moveShip. by rewrite Hl. Qed.

(** C5.  On a battlefield with [isLocked] set, [moveShip] returns at once:
    the whole state is the one before the call, so the ship keeps its
    position and orientation, the field index is the same and no event
    has been fired. *)
Theorem moveShip_locked_noop b ship position isRotated :
  isLocked b = true →
  moveShip b ship position isRotated = b ∧
  Ship.position (heap (moveShip b ship position isRotated) ship)
    = Ship.position (heap b ship) ∧
  Ship.isRotated (heap (moveShip b ship position isRotated) ship)
    = Ship.isRotated (heap b ship) ∧
  _fields (moveShip b ship position isRotated) = _fields b ∧
  fired (moveShip b ship position isRotated) = fired b.
Proof.
  intros Hl. by rewrite moveShip_locked.
Qed.

Lemma moveShip_locked_noop_witness :
  isLocked locked_board5 = true ∧
  moveShip locked_board5 1 (num 2, num 2) (Some true) = locked_board5.
Proof.
  split; [reflexivity|].
  apply (moveShip_locked_noop locked_board5 1 (num 2, num 2) (Some true)).
  reflexivity.
Defined.

(** ** C10: [markAs] *)

Lemma markAsMissed_fired b position :
  fired (markAsMissed b position) = fired b ++ [EvMissed position].
Proof.
  unfold markAsMissed. by destruct (_getFieldOrCreate _ _).
Qed.

Lemma markAsHit_fired b position :
  fired (markAsHit b position) = fired b ++ [EvHit position].
Proof.
  unfold markAsHit. by destruct (_getFieldOrCreate _ _).
Qed.

(** C10, as stated, fails: the test is the loose [type == 'missed'], so an
    argument that is not the string ['missed'] but an object converting to
    it (the array [['missed']], or [new String( 'missed' )]) is sent to
    [markAsMissed] and not to [markAsHit]. *)
Lemma markAs_object_converting_to_missed :
  JObject (JString "missed") ≠ JPrim (JString "missed") ∧
  markAs board5 (0, 0)%Z (JObject (JString "missed"))
    = markAsMissed board5 (0, 0)%Z ∧
  markAs board5 (0, 0)%Z (JObject (JString "missed"))
    ≠ markAsHit board5 (0, 0)%Z.
Proof.
  split_and!; [discriminate|reflexivity|].
  intros Heq. apply (f_equal fired) in Heq. vm_compute in Heq.
  discriminate Heq.
Qed.

(** C10, amended.  [markAs] does what [markAsHit] does for every [type]
    that is not loosely equal to ['missed']: undefined, null, a boolean, a
    number, a string other than ['missed'] (['hit'] among them), or an object
    that does not convert to the string ['missed'].  It does what
    [markAsMissed] does for the string ['missed'] and for the objects that
    convert to it.  The two are told apart by the event fired. *)
Theorem markAs_dispatch b position type :
  (toPrimitive type ≠ JString "missed" →
   markAs b position type = markAsHit b position) ∧
  (toPrimitive type = JString "missed" →
   markAs b position type = markAsMissed b position) ∧
  markAsMissed b position ≠ markAsHit b position.
Proof.
  split_and!.
  - intros Hne. unfold markAs, looseEq_missed.
    destruct (toPrimitive type) as [| | | |s]; simpl; try done.
    rewrite bool_decide_eq_false_2; [done|]. congruence.
  - intros Heq. unfold markAs, looseEq_missed. by rewrite Heq.
  - intros Heq. apply (f_equal fired) in Heq.
    rewrite markAsMissed_fired, markAsHit_fired in Heq.
    by apply app_inj_tail in Heq as [_ ?].
Qed.

Lemma markAs_dispatch_witness :
  markAs board5 (0, 0)%Z JUndefined = markAsHit board5 (0, 0)%Z ∧
  markAs board5 (0, 0)%Z (JString "hit") = markAsHit board5 (0, 0)%Z ∧
  markAs board5 (0, 0)%Z (JObject (JNumber 7)) = markAsHit board5 (0, 0)%Z ∧
  markAs board5 (0, 0)%Z (JString "missed") = markAsMissed board5 (0, 0)%Z.
Proof.
  split_and!.
  - apply (markAs_dispatch board5 (0, 0)%Z JUndefined). discriminate.
  - apply (markAs_dispatch board5 (0, 0)%Z (JString "hit")). discriminate.
  - apply (markAs_dispatch board5 (0, 0)%Z (JObject (JNumber 7))).
    discriminate.
  - apply (markAs_dispatch board5 (0, 0)%Z (JString "missed")). reflexivity.
Defined.

(** ** What an unlocked [moveShip] leaves behind *)

Lemma moveShip_unlocked b ship position isRotated :
  isLocked b = false →
  moveShip b ship position isRotated =
  fire (EvShipMoved ship)
    (set_fields
       (foldl (occupy ship)
          (foldl (vacate ship) (_fields b) (Ship.getCoordinates (heap b ship)))
          (Ship.getCoordinates (committed b ship position isRotated)))
       (set_heap (<[ship := committed b ship position isRotated]> (heap b)) b)).
Proof.
  intros Hl. unfold moveShip, committed. rewrite Hl.
  destruct position as [x y], isRotated as [[]|]; simpl; try done.
  by destruct (Ship.isRotated (heap b ship)).
Qed.

Lemma moveShip_size b ship position isRotated :
  size (moveShip b ship position isRotated) = size b.
Proof.
  destruct (isLocked b) eqn:Hl.
  - by rewrite moveShip_locked.
  - by rewrite moveShip_unlocked.
Qed.

Lemma moveShip_isLocked b ship position isRotated :
  isLocked (moveShip b ship position isRotated) = isLocked b.
Proof.
  destruct (isLocked b) eqn:Hl.
  - by rewrite moveShip_locked.
  - by rewrite moveShip_unlocked.
Qed.

Lemma moveShip_shipsCollection b ship position isRotated :
  shipsCollection (moveShip b ship position isRotated) = shipsCollection b.
Proof.
  destruct (isLocked b) eqn:Hl.
  - by rewrite moveShip_locked.
  - by rewrite moveShip_unlocked.
Qed.

Lemma moveShip_heap b ship position isRotated :
  isLocked b = false →
  heap (moveShip b ship position isRotated) =
  <[ship := committed b ship position isRotated]> (heap b).
Proof. intros Hl. by rewrite moveShip_unlocked. Qed.

Lemma moveShip_heap_same b ship position isRotated :
  isLocked b = false →
  heap (moveShip b ship position isRotated) ship =
  committed b ship position isRotated.
Proof. intros Hl. by rewrite moveShip_heap, fn_lookup_insert. Qed.

Lemma moveShip_heap_other b ship other position isRotated :
  other ≠ ship →
  heap (moveShip b ship position isRotated) other = heap b other.
Proof.
  intros Hne. destruct (isLocked b) eqn:Hl.
  - by rewrite moveShip_locked.
  - by rewrite moveShip_heap, fn_lookup_insert_ne.
Qed.

Lemma moveShip_fields b ship position isRotated :
  isLocked b = false →
  _fields (moveShip b ship position isRotated) =
  foldl (occupy ship)
    (foldl (vacate ship) (_fields b) (Ship.getCoordinates (heap b ship)))
    (Ship.getCoordinates (committed b ship position isRotated)).
Proof. intros Hl. by rewrite moveShip_unlocked. Qed.

(** ** C9: [rotateShip] *)

(** C9.  [rotateShip( ship )] is [moveShip] called with the ship's own
    position and the opposite orientation: the two calls leave the same
    battlefield, the same ships and the same fired events.  So, like
    [moveShip], it does nothing on a locked battlefield, and otherwise it
    flips the orientation and fires one [shipMoved]. *)
Theorem rotateShip_is_moveShip b ship :
  let b' := moveShip b ship (Ship.position (heap b ship))
              (Some (negb (Ship.isRotated (heap b ship)))) in
  rotateShip b ship = b' ∧
  heap (rotateShip b ship) = heap b' ∧
  _fields (rotateShip b ship) = _fields b' ∧
  fired (rotateShip b ship) = fired b' ∧
  fired (rotateShip b ship) =
    (if isLocked b then fired b else fired b ++ [EvShipMoved ship]) ∧
  Ship.isRotated (heap (rotateShip b ship) ship) =
    (if isLocked b then Ship.isRotated (heap b ship)
     else negb (Ship.isRotated (heap b ship))).
Proof.
  intros b'. split_and!; try reflexivity.
  - unfold rotateShip. destruct (isLocked b) eqn:Hl.
    + by rewrite moveShip_locked.
    + by rewrite moveShip_unlocked.
  - unfold rotateShip. destruct (isLocked b) eqn:Hl.
    + by rewrite moveShip_locked.
    + by rewrite moveShip_heap_same.
Qed.

(** ** C1: the clamp of [moveShip] *)

(** C1, as stated, fails: a negative coordinate is not raised to 0.  On the
    unlocked board of size 5, the ship 1 of length 2 moved to [-1, 0] keeps
    the head component -1, which is outside [0, 3]. *)
Lemma moveShip_negative_head_not_clamped :
  isLocked board5 = false ∧
  Ship.isRotated (heap (moveShip board5 1 (num (-1), num 0) (Some false)) 1)
    = false ∧
  axisComponent (heap (moveShip board5 1 (num (-1), num 0) (Some false)) 1)
    = num (-1) ∧
  ¬ (0 ≤ -1 ≤ size board5 - Z.pos (Ship.length (heap board5 1)))%Z.
Proof.
  split_and!; [reflexivity..|]. simpl. lia.
Qed.

(** C1, amended.  After [moveShip] on an unlocked battlefield of size N with
    a ship of length L and the integer coordinate [x, y], the ship has the
    orientation asked for (its own when none is given) and the same length;
    the head component on the orientation axis is the smaller of the input
    component [c] and N - L, so it never exceeds N - L, and it lies in
    [0, N - L] whenever [c] is not negative and L is at most N; the other
    component is the input one, unchanged. *)
Theorem moveShip_head_on_axis b ship x y isRotated :
  isLocked b = false →
  let s := heap b ship in
  let s' := heap (moveShip b ship (num x, num y) isRotated) ship in
  let max := (size b - Z.pos (Ship.length s))%Z in
  let c := if Ship.isRotated s' then y else x in
  Ship.isRotated s' = default (Ship.isRotated s) isRotated ∧
  Ship.length s' = Ship.length s ∧
  axisComponent s' = num (c `min` max) ∧
  (c `min` max ≤ max)%Z ∧
  ((0 ≤ c)%Z → (Z.pos (Ship.length s) ≤ size b)%Z → (0 ≤ c `min` max ≤ max)%Z) ∧
  crossComponent s' = num (if Ship.isRotated s' then x else y).
Proof.
  intros Hl s s' max c. subst s' c.
  rewrite moveShip_heap_same by done.
  unfold committed, axisComponent, crossComponent, clamp. fold s. simpl.
  fold max.
  destruct (default (Ship.isRotated s) isRotated); simpl;
    (split_and!; [done|done| |lia|lia|done]).
  - destruct (Z.gtb_spec y max); f_equal; lia.
  - destruct (Z.gtb_spec x max); f_equal; lia.
Qed.

Lemma moveShip_head_on_axis_witness :
  axisComponent (heap (moveShip board5 1 (num 7, num 1) None) 1) = num 3 ∧
  axisComponent (heap (moveShip board5 3 (num 0, num 9) (Some true)) 3) = num 2.
Proof.
  split.
  - apply (moveShip_head_on_axis board5 1 7 1 None). reflexivity.
  - apply (moveShip_head_on_axis board5 3 0 9 (Some true)). reflexivity.
Defined.

(** ** C6: [isShipInBound] *)

(** C6.  For a placed ship, [isShipInBound] returns a boolean, and it is
    [true] exactly when the head and the tail both have both components at
    least 0 and below [size]. *)
Theorem isShipInBound_iff b ship :
  Ship.hasPosition (heap b ship) = true →
  ∃ x y tx ty v,
    Ship.position (heap b ship) = (num x, num y) ∧
    Ship.tail (heap b ship) = Some (tx, ty) ∧
    isShipInBound b ship = Some v ∧
    (v = true ↔
       (0 ≤ x < size b)%Z ∧ (0 ≤ y < size b)%Z ∧
       (0 ≤ tx < size b)%Z ∧ (0 ≤ ty < size b)%Z).
Proof.
  intros Hp. unfold Ship.hasPosition in Hp.
  destruct (Ship.position (heap b ship)) as [[|x] [|y]] eqn:Hpos; try done.
  pose proof (tail_placed _ _ _ Hpos) as Ht.
  unfold isShipInBound. rewrite Ht, Hpos. simpl.
  destruct (Z.leb_spec 0 x) as [Hx|Hx];
    destruct (Ship.isRotated (heap b ship)); simpl.
  - eexists x, y, x, _, _. split_and!; [done..|].
    rewrite !andb_true_iff, !Z.leb_le, !Z.ltb_lt. lia.
  - eexists x, y, _, y, _. split_and!; [done..|].
    rewrite !andb_true_iff, !Z.leb_le, !Z.ltb_lt. lia.
  - eexists x, y, x, _, _. split_and!; [done..|]. split; [done|lia].
  - eexists x, y, _, y, _. split_and!; [done..|]. split; [done|lia].
Qed.

Lemma isShipInBound_iff_witness :
  Ship.hasPosition (heap (moveShip board5 3 (num 4, num 4) None) 3) = true ∧
  isShipInBound (moveShip board5 3 (num 4, num 4) None) 3 = Some true ∧
  isShipInBound (moveShip board5 3 (num 1, num 7) None) 3 = Some false.
Proof.
  split_and!; [reflexivity| |].
  - destruct (isShipInBound_iff (moveShip board5 3 (num 4, num 4) None) 3)
      as (x & y & tx & ty & v & _ & _ & Hv & _); [reflexivity|].
    reflexivity.
  - destruct (isShipInBound_iff (moveShip board5 3 (num 1, num 7) None) 3)
      as (x & y & tx & ty & v & _ & _ & Hv & _); [reflexivity|].
    reflexivity.
Defined.

(** ** C7: [reset] *)

Lemma reset_heap_fold (l : list ShipId) (h : ShipId → Ship.t) i :
  foldl (λ h ship, <[ship := Ship.reset (h ship)]> h) h l i =
  if decide (i ∈ l) then Ship.reset (h i) else h i.
Proof.
  revert h. induction l as [|a l IH]; intros h; simpl.
  - destruct (decide (i ∈ [])); [set_solver|done].
  - rewrite IH. destruct (decide (i = a)) as [->|Hne].
    + rewrite fn_lookup_insert.
      destruct (decide (a ∈ a :: l)); [|set_solver].
      by destruct (decide (a ∈ l)).
    + rewrite fn_lookup_insert_ne by done.
      destruct (decide (i ∈ l)) as [Hi|Hi], (decide (i ∈ a :: l)) as [Hj|Hj];
        try done; exfalso; [apply Hj; by right|].
      apply Hi. by apply elem_of_cons in Hj as [?|?].
Qed.

(** C7.  After [reset()] the iteration over the battlefield yields no field,
    and every ship of the collection is unplaced, unrotated and without
    collision; the collection itself is the same. *)
Theorem reset_clears b :
  iterate (reset b) = [] ∧
  shipsCollection (reset b) = shipsCollection b ∧
  Forall (λ ship,
            Ship.hasPosition (heap (reset b) ship) = false ∧
            Ship.isCollision (heap (reset b) ship) = false ∧
            Ship.isRotated (heap (reset b) ship) = false)
         (shipsCollection (reset b)).
Proof.
  split_and!.
  - unfold iterate, reset. simpl. by rewrite map_to_list_empty.
  - reflexivity.
  - apply Forall_forall. intros ship Hin. unfold reset; simpl in *.
    rewrite reset_heap_fold, decide_True by done. done.
Qed.

(** ** C8: the key of a coordinate *)

Lemma pretty_N_char_not_x d : pretty_N_char d ≠ "x"%char.
Proof. unfold pretty_N_char. by repeat case_match. Qed.

Lemma pretty_N_go_free x s : free_of "x" s → free_of "x" (pretty_N_go x s).
Proof.
  revert s. induction (N.lt_wf_0 x) as [x _ IH]; intros s Hs.
  assert (x = 0 ∨ 0 < x)%N as [->|Hpos] by lia.
  - by rewrite pretty_N_go_0.
  - rewrite pretty_N_go_step by done. apply IH.
    + by apply N.div_lt.
    + split; [apply pretty_N_char_not_x|done].
Qed.

Lemma pretty_N_free (x : N) : free_of "x" (pretty x).
Proof.
  unfold pretty, pretty_N. case_decide.
  - by compute.
  - by apply pretty_N_go_free.
Qed.

Lemma pretty_Z_free (z : Z) : free_of "x" (pretty z).
Proof.
  destruct z as [|p|p]; unfold pretty, pretty_Z.
  - by compute.
  - apply (pretty_N_free (N.pos p)).
  - split; [done|]. apply (pretty_N_free (N.pos p)).
Qed.

(** Two strings cut at their first ['x'] agree piecewise. *)
Lemma append_x_inj s1 s2 t1 t2 :
  free_of "x" s1 → free_of "x" s2 →
  s1 +:+ "x" +:+ t1 = s2 +:+ "x" +:+ t2 → s1 = s2 ∧ t1 = t2.
Proof.
  revert s2. induction s1 as [|a s1 IH]; intros [|c s2] H1 H2 Heq;
    simpl in *.
  - by simplify_eq/=.
  - destruct H2 as [Hc _]. by simplify_eq/=.
  - destruct H1 as [Ha _]. by simplify_eq/=.
  - destruct H1 as [_ H1], H2 as [_ H2]. injection Heq as -> Heq.
    by destruct (IH s2 H1 H2 Heq) as [-> ->].
Qed.

Lemma join_x_inj p q : join_x p = join_x q → p = q.
Proof.
  destruct p as [x1 y1], q as [x2 y2]. unfold join_x. simpl. intros Heq.
  apply append_x_inj in Heq as [Hx Hy]; [|apply pretty_Z_free..].
  by rewrite (inj pretty _ _ Hx), (inj pretty _ _ Hy).
Qed.

(** C8.  Two different pairs of non-negative integers have different keys,
    so on any battlefield the lookups of two different coordinates go to
    different entries of the index. *)
Theorem join_x_injective x1 y1 x2 y2 :
  (0 ≤ x1)%Z → (0 ≤ y1)%Z → (0 ≤ x2)%Z → (0 ≤ y2)%Z →
  (x1, y1) ≠ (x2, y2) →
  join_x (x1, y1) ≠ join_x (x2, y2).
Proof.
  intros _ _ _ _ Hne Heq. by apply Hne, join_x_inj.
Qed.

Lemma join_x_injective_witness :
  join_x (1, 12)%Z ≠ join_x (11, 2)%Z.
Proof.
  apply (join_x_injective 1 12 11 2); [lia..|]. intros [=].
Defined.

(** ** The two loops of [moveShip], entry by entry *)

Lemma removeShip_not_elem ship f : ship ∉ Field.ships (Field.removeShip ship f).
Proof.
  unfold Field.removeShip. simpl. intros Hin.
  apply list_elem_of_filter in Hin as [Hne _]. by apply Hne.
Qed.

Lemma addShip_elem ship f : ship ∈ Field.ships (Field.addShip ship f).
Proof.
  unfold Field.addShip. case_decide; [done|]. simpl.
  apply elem_of_app. right. by apply list_elem_of_singleton.
Qed.

Lemma addShip_marker ship f :
  Field.marker (Field.addShip ship f) = Field.marker f.
Proof. unfold Field.addShip. by case_decide. Qed.

Lemma addShip_elem_other ship other f :
  other ≠ ship →
  other ∈ Field.ships (Field.addShip ship f) ↔ other ∈ Field.ships f.
Proof.
  intros Hne. unfold Field.addShip. case_decide; [done|]. simpl.
  rewrite elem_of_app, list_elem_of_singleton. tauto.
Qed.

Lemma vacated_idemp ship o : vacated ship (vacated ship o) = vacated ship o.
Proof.
  destruct o as [f|]; [|done]. simpl.
  case_decide as Hin; simpl.
  - destruct (Field.length f =? 1); [done|]. simpl.
    by rewrite decide_False by apply removeShip_not_elem.
  - by rewrite decide_False.
Qed.

Lemma occupied_idemp ship pos o :
  occupied ship pos (occupied ship pos o) = occupied ship pos o.
Proof.
  unfold occupied. simpl. f_equal. unfold Field.addShip at 1.
  by rewrite decide_True by apply addShip_elem.
Qed.

Lemma vacate_lookup ship fs pos k :
  vacate ship fs pos !! k =
  if decide (k = join_x pos) then vacated ship (fs !! k) else fs !! k.
Proof.
  unfold vacate, Field.getShip. case_decide as Hk.
  - subst k. destruct (fs !! join_x pos) as [f|] eqn:Hf; simpl; [|done].
    case_decide; [|done].
    destruct (Field.length f =? 1).
    + by rewrite lookup_delete_eq.
    + by rewrite lookup_insert_eq.
  - destruct (fs !! join_x pos) as [f|] eqn:Hf; [|done].
    case_decide; [|done].
    destruct (Field.length f =? 1).
    + by rewrite lookup_delete_ne.
    + by rewrite lookup_insert_ne.
Qed.

Lemma occupy_lookup ship fs pos k :
  occupy ship fs pos !! k =
  if decide (k = join_x pos) then occupied ship pos (fs !! k) else fs !! k.
Proof.
  unfold occupy, _getFieldOrCreate, occupied, Field.id. case_decide as Hk.
  - subst k. destruct (fs !! join_x pos) as [f|] eqn:Hf; simpl;
      by rewrite lookup_insert_eq.
  - destruct (fs !! join_x pos) as [f|] eqn:Hf; simpl;
      by rewrite !lookup_insert_ne.
Qed.

Lemma foldl_vacate_lookup ship l fs k :
  foldl (vacate ship) fs l !! k =
  if decide (k ∈ join_x <$> l) then vacated ship (fs !! k) else fs !! k.
Proof.
  revert fs. induction l as [|a l IH]; intros fs.
  - done.
  - rewrite fmap_cons. cbn [foldl]. rewrite IH, vacate_lookup.
    repeat case_decide; try done.
    + apply vacated_idemp.
    + exfalso. by set_unfold; tauto.
    + exfalso. by set_unfold; tauto.
    + exfalso. by set_unfold; tauto.
    + exfalso. by set_unfold; tauto.
Qed.

Lemma foldl_occupy_lookup_ne ship l fs k :
  k ∉ join_x <$> l → foldl (occupy ship) fs l !! k = fs !! k.
Proof.
  revert fs. induction l as [|a l IH]; intros fs Hk; simpl; [done|].
  simpl in Hk. apply not_elem_of_cons in Hk as [Ha Hl].
  rewrite IH by done. rewrite occupy_lookup. by rewrite decide_False.
Qed.

Lemma foldl_occupy_lookup ship l fs pos :
  pos ∈ l →
  foldl (occupy ship) fs l !! join_x pos = occupied ship pos (fs !! join_x pos).
Proof.
  revert fs. induction l as [|a l IH]; intros fs Hin; simpl.
  - by apply elem_of_nil in Hin.
  - destruct (decide (pos ∈ l)) as [Hl|Hl].
    + rewrite IH by done. rewrite occupy_lookup. case_decide as Hk; [|done].
      apply join_x_inj in Hk as ->. apply occupied_idemp.
    + apply elem_of_cons in Hin as [->|?]; [|done].
      rewrite foldl_occupy_lookup_ne.
      * rewrite occupy_lookup. by rewrite decide_True.
      * intros Hk. apply list_elem_of_fmap in Hk as (p & Hp & ?).
        by apply join_x_inj in Hp as ->.
Qed.

(** The entry of a cell after an unlocked [moveShip]. *)
Lemma moveShip_getField b ship position isRotated pos :
  isLocked b = false →
  getField (moveShip b ship position isRotated) pos =
  let left :=
    if decide (pos ∈ Ship.getCoordinates (heap b ship))
    then vacated ship (getField b pos) else getField b pos in
  if decide (pos ∈ Ship.getCoordinates (committed b ship position isRotated))
  then occupied ship pos left else left.
Proof.
  intros Hl. unfold getField. rewrite moveShip_fields by done. simpl.
  assert (∀ l : list (Z * Z), (join_x pos ∈ join_x <$> l) ↔ pos ∈ l) as Hmem.
  { intros l. rewrite list_elem_of_fmap. split; [|by eauto].
    intros (p & Hp & ?). by apply join_x_inj in Hp as ->. }
  case_decide as Hnew.
  - rewrite foldl_occupy_lookup by done. f_equal.
    rewrite foldl_vacate_lookup.
    destruct (decide (pos ∈ _)) as [H1|H1],
             (decide (join_x pos ∈ _)) as [H2|H2]; try done; exfalso.
    + apply H2, Hmem, H1.
    + apply H1, Hmem, H2.
  - rewrite foldl_occupy_lookup_ne by (by rewrite Hmem).
    rewrite foldl_vacate_lookup.
    destruct (decide (pos ∈ _)) as [H1|H1],
             (decide (join_x pos ∈ _)) as [H2|H2]; try done; exfalso.
    + apply H2, Hmem, H1.
    + apply H1, Hmem, H2.
Qed.

(** ** C2: marked fields and [moveShip] *)

(** C2, as stated, fails: the field at [0, 0] is marked hit and holds ship 4
    only; after ship 4 is moved to [2, 2] the field is gone from the index,
    marker included. *)
Lemma moveShip_drops_marked_field :
  isLocked marked_board = false ∧
  getField marked_board (0, 0)%Z = Some (Field.mk (0, 0)%Z [4] Field.hit) ∧
  getField (moveShip marked_board 4 (num 2, num 2) None) (0, 0)%Z = None.
Proof. split_and!; vm_compute; reflexivity. Qed.

(** C2, amended.  Take a field that is in the index before an unlocked
    [moveShip] of a ship, marked or not.  It is absent afterwards exactly
    when the cell was one of the ship's cells, the ship was registered on it
    as its only occupant, and the cell is not one of the ship's new cells.
    When the ship was not its only occupant there (or not on it at all), the
    field stays in the index with its marker and its coordinate. *)
Theorem moveShip_field_deleted_iff b ship position isRotated pos f :
  isLocked b = false →
  getField b pos = Some f →
  let b' := moveShip b ship position isRotated in
  let alone :=
    pos ∈ Ship.getCoordinates (heap b ship) ∧
    ship ∈ Field.ships f ∧ Field.length f = 1 in
  (getField b' pos = None ↔
     alone ∧ pos ∉ Ship.getCoordinates (heap b' ship)) ∧
  (¬ alone →
     ∃ f', getField b' pos = Some f' ∧
           Field.marker f' = Field.marker f ∧
           Field.position f' = Field.position f).
Proof.
  intros Hl Hf b' alone. subst b' alone.
  rewrite moveShip_heap_same, moveShip_getField by done. rewrite Hf. simpl.
  set (news := Ship.getCoordinates (committed b ship position isRotated)).
  set (olds := Ship.getCoordinates (heap b ship)).
  assert (∀ g, ∃ f', occupied ship pos (Some g) = Some f' ∧
                     Field.marker f' = Field.marker g ∧
                     Field.position f' = Field.position g) as Hocc.
  { intros g. eexists. split; [done|]. simpl. unfold Field.addShip.
    by case_decide. }
  assert (∀ o, occupied ship pos o ≠ None) as Hsome by done.
  destruct (decide (pos ∈ olds)) as [Ho|Ho];
    [destruct (decide (ship ∈ Field.ships f)) as [Hs|Hs];
     [destruct (Nat.eqb_spec (Field.length f) 1) as [Hlen|Hlen]|]|];
    destruct (decide (pos ∈ news)) as [Hn|Hn];
    (split; [split; [intros Hnone; try done; by apply Hsome in Hnone|tauto]|]);
    try tauto; intros _; try (by eexists); try (by apply Hocc).
  destruct (Hocc (Field.removeShip ship f)) as (f' & ? & ? & ?). eauto.
Qed.

Lemma moveShip_field_deleted_iff_witness :
  (getField (moveShip marked_board 4 (num 2, num 2) None) (0, 0)%Z = None ↔
     ((0, 0)%Z ∈ Ship.getCoordinates (heap marked_board 4) ∧
      4 ∈ [4] ∧ length [4] = 1) ∧
     (0, 0)%Z ∉ Ship.getCoordinates
                  (heap (moveShip marked_board 4 (num 2, num 2) None) 4)) ∧
  ∃ f', getField (moveShip shared_marked_board 4 (num 2, num 2) None) (0, 0)%Z
          = Some f' ∧ Field.marker f' = Field.hit.
Proof.
  split.
  - apply (moveShip_field_deleted_iff marked_board 4 (num 2, num 2) None
             (0, 0)%Z (Field.mk (0, 0)%Z [4] Field.hit));
      vm_compute; reflexivity.
  - destruct (moveShip_field_deleted_iff shared_marked_board 4 (num 2, num 2)
                None (0, 0)%Z (Field.mk (0, 0)%Z [1; 4] Field.hit))
      as [_ Hkeep]; [vm_compute; reflexivity..|].
    destruct Hkeep as (f' & Hf' & Hm & _).
    + simpl. intros (_ & _ & Hlen). discriminate Hlen.
    + exists f'. split; [exact Hf'|exact Hm].
Defined.

(** ** C3: where a ship is registered after [moveShip] *)

Lemma fieldsOf_is_Some b ship k :
  is_Some (fieldsOf b ship !! k) ↔
  ∃ f, _fields b !! k = Some f ∧ ship ∈ Field.ships f.
Proof.
  unfold fieldsOf. split.
  - intros [f Hf]. apply map_lookup_filter_Some in Hf as [? ?]. eauto.
  - intros (f & Hf & Hin). exists f. by apply map_lookup_filter_Some.
Qed.

Lemma vacated_not_elem ship o f :
  vacated ship o = Some f → ship ∉ Field.ships f.
Proof.
  destruct o as [g|]; [|done]. simpl. case_decide as Hin.
  - destruct (Field.length g =? 1); [done|].
    intros [= <-]. apply removeShip_not_elem.
  - by intros [= <-].
Qed.

Lemma getCoordinates_NoDup s : NoDup (Ship.getCoordinates s).
Proof.
  unfold Ship.getCoordinates.
  destruct (Ship.position s) as [[|x] [|y]]; try apply NoDup_nil_2.
  apply NoDup_fmap_2_strong; [|apply NoDup_seq].
  intros i j _ _. destruct (Ship.isRotated s); intros [= ?]; lia.
Qed.

Lemma getCoordinates_keys_NoDup s : NoDup (join_x <$> Ship.getCoordinates s).
Proof.
  apply NoDup_fmap_2_strong; [|apply getCoordinates_NoDup].
  intros p q _ _. apply join_x_inj.
Qed.

(** After an unlocked [moveShip] on an index that agrees with the ship, the
    keys under which the ship is registered are those of its new cells. *)
Lemma moveShip_registered_keys b ship position isRotated k :
  isLocked b = false →
  registered_on_own_cells b ship →
  is_Some (fieldsOf (moveShip b ship position isRotated) ship !! k) ↔
  k ∈ join_x <$> Ship.getCoordinates (committed b ship position isRotated).
Proof.
  intros Hl Hreg. rewrite fieldsOf_is_Some, moveShip_fields by done. split.
  - intros (f & Hf & Hin).
    destruct (decide (k ∈ join_x <$> Ship.getCoordinates
                (committed b ship position isRotated))) as [|Hk];
      [done|exfalso].
    rewrite foldl_occupy_lookup_ne, foldl_vacate_lookup in Hf by done.
    case_decide as Hold.
    + by apply vacated_not_elem in Hf.
    + apply Hold. by eapply Hreg.
  - intros Hk. apply list_elem_of_fmap in Hk as (pos & -> & Hpos).
    rewrite foldl_occupy_lookup by done. eexists. split; [done|].
    apply addShip_elem.
Qed.

(** The agreement of the index with the ships holds on a new battlefield and
    is kept by every operation of the battlefield. *)
Lemma newBattlefield_registered sz h ship :
  registered_on_own_cells (newBattlefield sz h) ship.
Proof. intros k f Hf. simpl in Hf. by rewrite lookup_empty in Hf. Qed.

Lemma reset_registered b ship : registered_on_own_cells (reset b) ship.
Proof. intros k f Hf. simpl in Hf. by rewrite lookup_empty in Hf. Qed.

Lemma unplaceAll_registered b ship : registered_on_own_cells (unplaceAll b) ship.
Proof. intros k f Hf. simpl in Hf. by rewrite lookup_empty in Hf. Qed.

Lemma vacated_elem_other ship other o g :
  vacated ship o = Some g → other ∈ Field.ships g →
  ∃ f, o = Some f ∧ other ∈ Field.ships f.
Proof.
  destruct o as [f|]; [|done]. simpl. case_decide.
  - destruct (Field.length f =? 1); [done|]. intros [= <-]. simpl.
    intros Hin. apply list_elem_of_filter in Hin as [_ Hin]. eauto.
  - intros [= <-]. eauto.
Qed.

Lemma moveShip_registered_same b ship position isRotated :
  registered_on_own_cells b ship →
  registered_on_own_cells (moveShip b ship position isRotated) ship.
Proof.
  intros Hreg. destruct (isLocked b) eqn:Hl; [by rewrite moveShip_locked|].
  intros k f Hf Hin. rewrite moveShip_heap_same by done.
  apply moveShip_registered_keys; [done..|]. apply fieldsOf_is_Some. eauto.
Qed.

Lemma moveShip_registered_other b ship position isRotated other :
  other ≠ ship →
  registered_on_own_cells b other →
  registered_on_own_cells (moveShip b ship position isRotated) other.
Proof.
  intros Hne Hreg. destruct (isLocked b) eqn:Hl; [by rewrite moveShip_locked|].
  intros k f'. rewrite moveShip_heap_other, moveShip_fields by done.
  intros Hf Hin.
  set (news := Ship.getCoordinates (committed b ship position isRotated)) in *.
  set (fs1 := foldl (vacate ship) (_fields b)
                (Ship.getCoordinates (heap b ship))) in *.
  assert (∃ g, fs1 !! k = Some g ∧ other ∈ Field.ships g)
    as (g & Hg & Hing).
  { destruct (decide (k ∈ join_x <$> news)) as [Hk|Hk].
    - apply list_elem_of_fmap in Hk as (pos & -> & Hpos).
      rewrite foldl_occupy_lookup in Hf by done.
      unfold occupied in Hf. injection Hf as <-.
      apply addShip_elem_other in Hin; [|done].
      destruct (fs1 !! join_x pos) as [g|]; simpl in Hin; [eauto|].
      by apply elem_of_nil in Hin.
    - rewrite foldl_occupy_lookup_ne in Hf by done. eauto. }
  subst fs1. rewrite foldl_vacate_lookup in Hg.
  assert (∃ f, _fields b !! k = Some f ∧ other ∈ Field.ships f)
    as (f & Hf0 & Hin0).
  { case_decide; [by eapply vacated_elem_other|eauto]. }
  by eapply Hreg.
Qed.

Lemma markAsHit_registered b position ship :
  registered_on_own_cells b ship →
  registered_on_own_cells (markAsHit b position) ship.
Proof.
  intros Hreg k f. unfold markAsHit, _getFieldOrCreate, Field.id.
  destruct (_fields b !! join_x position) as [g|] eqn:Hg; simpl.
  - destruct (decide (k = join_x position)) as [->|Hne].
    + rewrite lookup_insert_eq. intros [= <-]. simpl. by apply Hreg.
    + rewrite lookup_insert_ne by done. apply Hreg.
  - destruct (decide (k = join_x position)) as [->|Hne].
    + rewrite lookup_insert_eq. intros [= <-]. simpl. intros Hin.
      by apply elem_of_nil in Hin.
    + rewrite !lookup_insert_ne by done. apply Hreg.
Qed.

Lemma markAsMissed_registered b position ship :
  registered_on_own_cells b ship →
  registered_on_own_cells (markAsMissed b position) ship.
Proof.
  intros Hreg k f. unfold markAsMissed, _getFieldOrCreate, Field.id.
  destruct (_fields b !! join_x position) as [g|] eqn:Hg; simpl.
  - destruct (decide (k = join_x position)) as [->|Hne].
    + rewrite lookup_insert_eq. intros [= <-]. simpl. by apply Hreg.
    + rewrite lookup_insert_ne by done. apply Hreg.
  - destruct (decide (k = join_x position)) as [->|Hne].
    + rewrite lookup_insert_eq. intros [= <-]. simpl. intros Hin.
      by apply elem_of_nil in Hin.
    + rewrite !lookup_insert_ne by done. apply Hreg.
Qed.

(** C3, as stated, fails: the ship can still be registered on a cell it
    occupied before the call, namely one that is also a cell of its new
    coordinates.  Ship 1 (length 2) lies on [0, 0] and [1, 0]; moved to
    [1, 0] it lies on [1, 0] and [2, 0], and the field at [1, 0] lists it. *)
Lemma moveShip_keeps_shared_cell :
  let b1 := moveShip board5 1 (num 0, num 0) None in
  let b2 := moveShip b1 1 (num 1, num 0) None in
  isLocked b1 = false ∧
  Ship.getCoordinates (heap b1 1) = [(0, 0)%Z; (1, 0)%Z] ∧
  getField b2 (1, 0)%Z = Some (Field.mk (1, 0)%Z [1] Field.unmarked).
Proof. split_and!; vm_compute; reflexivity. Qed.

(** C3, amended.  Let the index agree with the ship before an unlocked
    [moveShip] (the ship is registered on cells of its coordinates only).
    After the call the fields listing the ship are exactly those of its new
    coordinates; these have pairwise different keys, so there are exactly L
    of them when the ship has a position (none when it has not); and the ship
    is registered on no cell of its old coordinates that is not one of the
    new ones. *)
Theorem moveShip_registration b ship position isRotated :
  isLocked b = false →
  registered_on_own_cells b ship →
  let b' := moveShip b ship position isRotated in
  let news := Ship.getCoordinates (heap b' ship) in
  (∀ k, is_Some (fieldsOf b' ship !! k) ↔ k ∈ join_x <$> news) ∧
  NoDup (join_x <$> news) ∧
  base.size (fieldsOf b' ship) =
    (if Ship.hasPosition (heap b' ship)
     then Pos.to_nat (Ship.length (heap b ship)) else 0) ∧
  (∀ pos, pos ∈ Ship.getCoordinates (heap b ship) → pos ∉ news →
          fieldsOf b' ship !! join_x pos = None).
Proof.
  intros Hl Hreg b' news.
  assert (news = Ship.getCoordinates (committed b ship position isRotated))
    as Hnews by (subst news b'; by rewrite moveShip_heap_same).
  assert (∀ k, is_Some (fieldsOf b' ship !! k) ↔ k ∈ join_x <$> news) as Hiff.
  { intros k. rewrite Hnews. by apply moveShip_registered_keys. }
  assert (NoDup (join_x <$> news)) as Hnd
    by (subst news; apply getCoordinates_keys_NoDup).
  split_and!; [done|done| |].
  - assert (dom (fieldsOf b' ship) = list_to_set (join_x <$> news)) as Hdom.
    { apply set_eq. intros k.
      by rewrite elem_of_dom, elem_of_list_to_set, Hiff. }
    rewrite <-size_dom, Hdom, size_list_to_set, length_fmap by done.
    subst news. destruct (Ship.hasPosition (heap b' ship)) eqn:Hp.
    + rewrite getCoordinates_length by done. subst b'.
      by rewrite moveShip_heap_same.
    + by rewrite getCoordinates_unplaced.
  - intros pos _ Hn. apply eq_None_not_Some. rewrite Hiff.
    intros Hk. apply list_elem_of_fmap in Hk as (p & Hp & ?).
    by apply join_x_inj in Hp as ->.
Qed.

Lemma moveShip_registration_witness :
  base.size (fieldsOf (moveShip (moveShip board5 1 (num 0, num 0) None) 1
                         (num 1, num 0) None) 1) = 2 ∧
  fieldsOf (moveShip (moveShip board5 1 (num 0, num 0) None) 1
              (num 1, num 0) None) 1 !! join_x (0, 0)%Z = None.
Proof.
  pose proof (moveShip_registration
                (moveShip board5 1 (num 0, num 0) None) 1 (num 1, num 0) None)
    as H.
  destruct H as (_ & _ & Hsize & Hold).
  - reflexivity.
  - intros k f. rewrite moveShip_fields by reflexivity.
    intros Hf Hin.
    destruct (decide (k ∈ join_x <$> Ship.getCoordinates
                (heap (moveShip board5 1 (num 0, num 0) None) 1)))
      as [Hk|Hk]; [exact Hk|exfalso].
    rewrite foldl_occupy_lookup_ne in Hf by exact Hk.
    discriminate Hf.
  - split; [exact Hsize|]. apply Hold.
    + vm_compute. left.
    + vm_compute. intros Hin. inversion Hin as [|? ? ? Hin']; subst.
      inversion Hin' as [|? ? ? Hin'']; subst. inversion Hin''.
Defined.

(** ** C4: the random arrangement *)

Lemma same_placement_refl s : same_placement s s.
Proof. by unfold same_placement. Qed.

Lemma same_placement_trans s1 s2 s3 :
  same_placement s1 s2 → same_placement s2 s3 → same_placement s1 s3.
Proof. unfold same_placement. intros (-> & -> & ->) (-> & -> & ->). done. Qed.

Lemma placed_in_bounds_same b b' ship :
  size b' = size b →
  same_placement (heap b ship) (heap b' ship) →
  placed_in_bounds b ship → placed_in_bounds b' ship.
Proof.
  intros Hsz (Hlen & Hpos & Hrot).
  unfold placed_in_bounds, isShipInBound, Ship.hasPosition, Ship.tail,
    Ship.getCoordinates.
  by rewrite Hlen, Hpos, Hrot, Hsz.
Qed.

(** One draw inside the board, committed by [moveShip], is in bounds when the
    ship is not longer than the board. *)
Lemma moveShip_drawn_in_bounds b ship x y r :
  isLocked b = false →
  (Z.pos (Ship.length (heap b ship)) ≤ size b)%Z →
  (0 ≤ x ≤ size b - 1)%Z → (0 ≤ y ≤ size b - 1)%Z →
  placed_in_bounds (moveShip b ship (num x, num y) (Some r)) ship.
Proof.
  intros Hl Hlen Hx Hy.
  unfold placed_in_bounds, isShipInBound.
  rewrite moveShip_heap_same, moveShip_size by done.
  set (s := committed b ship (num x, num y) (Some r)).
  assert (∃ hx hy, Ship.position s = (num hx, num hy) ∧
            Ship.isRotated s = r ∧ Ship.length s = Ship.length (heap b ship) ∧
            (0 ≤ hx)%Z ∧ (0 ≤ hy)%Z ∧
            (if r then hx < size b ∧ hy + Z.pos (Ship.length s) - 1 < size b
             else hx + Z.pos (Ship.length s) - 1 < size b ∧ hy < size b)%Z)
    as (hx & hy & Hpos & Hrot & Hlen' & Hhx & Hhy & Htail).
  { subst s. unfold committed, clamp. simpl.
    destruct r; simpl.
    - destruct (Z.gtb_spec y (size b - Z.pos (Ship.length (heap b ship))));
        eexists _, _; (split_and!; [done|done|done|lia..]).
    - destruct (Z.gtb_spec x (size b - Z.pos (Ship.length (heap b ship))));
        eexists _, _; (split_and!; [done|done|done|lia..]). }
  unfold Ship.hasPosition. rewrite (tail_placed _ _ _ Hpos), Hpos, Hrot.
  split; [done|]. simpl.
  rewrite (proj2 (Z.leb_le 0 hx) Hhx). f_equal.
  rewrite !andb_true_iff, !Z.leb_le, !Z.ltb_lt.
  destruct r; simpl; lia.
Qed.

Lemma attempt_frame rnd m b ship :
  size (attempt rnd m b ship) = size b ∧
  isLocked (attempt rnd m b ship) = isLocked b ∧
  shipsCollection (attempt rnd m b ship) = shipsCollection b ∧
  (∀ i, Ship.length (heap (attempt rnd m b ship) i) = Ship.length (heap b i)) ∧
  (∀ other, other ≠ ship →
            heap (attempt rnd m b ship) other = heap b other).
Proof.
  unfold attempt.
  rewrite moveShip_size, moveShip_isLocked, moveShip_shipsCollection.
  split_and!; try done.
  - intros i. destruct (decide (i = ship)) as [->|Hne].
    + destruct (isLocked b) eqn:Hl; [by rewrite moveShip_locked|].
      by rewrite moveShip_heap_same.
    + by rewrite moveShip_heap_other.
  - intros other Hne. by apply moveShip_heap_other.
Qed.

Lemma placeShip_spec check fuel rnd n b ship log n' b' :
  check_keeps_placement check →
  placeShip check fuel rnd n b ship = Some (log, n', b') →
  (∃ k, log = repeat (ship, true) k ++ [(ship, false)]) ∧
  size b' = size b ∧ isLocked b' = isLocked b ∧
  shipsCollection b' = shipsCollection b ∧
  (∀ i, Ship.length (heap b' i) = Ship.length (heap b i)) ∧
  (∀ other, other ≠ ship → same_placement (heap b other) (heap b' other)) ∧
  accepted check rnd b ship b'.
Proof.
  intros HF. revert n b log n' b'.
  induction fuel as [|fuel IH]; intros n b log n' b' Hrun; [done|].
  cbn [placeShip] in Hrun. fold (attempt rnd n b ship) in Hrun.
  destruct (attempt_frame rnd n b ship) as (Hsz1 & Hl1 & Hc1 & Hlen1 & Ho1).
  destruct (check (attempt rnd n b ship) ship) as [[collision b2]|] eqn:Hc;
    [|done].
  destruct (HF _ _ _ _ Hc) as (Hsz2 & Hl2 & Hc2 & Hsame2).
  assert (∀ i, Ship.length (heap b2 i) = Ship.length (heap b i)) as Hlens.
  { intros i. destruct (Hsame2 i) as (-> & _ & _). apply Hlen1. }
  assert (∀ other, other ≠ ship →
            same_placement (heap b other) (heap b2 other)) as Hothers.
  { intros other Hne. rewrite <-(Ho1 other Hne). apply Hsame2. }
  destruct collision.
  - destruct (placeShip check fuel rnd (n + 3) b2 ship)
      as [[[log0 n0] b0]|] eqn:Hrec; [|done].
    injection Hrun as <- <- <-.
    destruct (IH _ _ _ _ _ Hrec)
      as ([k ->] & Hsz' & Hl' & Hcoll' & Hlens' & Hothers' & Hacc).
    split_and!.
    + by exists (S k).
    + congruence.
    + congruence.
    + congruence.
    + intros i. by rewrite Hlens'.
    + intros other Hne. eapply same_placement_trans; eauto.
    + destruct Hacc as (bk & m & b1 & Hbsz & Hbl & Hblen & Hchk & Hsame).
      exists bk, m, b1. split_and!; try done; congruence.
  - injection Hrun as <- <- <-. split_and!.
    + by exists 0.
    + congruence.
    + congruence.
    + congruence.
    + done.
    + done.
    + exists b, n, b2. by split_and!.
Qed.

Lemma placeShips_spec check fuel rnd ships n b log n' b' :
  check_keeps_placement check →
  placeShips check fuel rnd n b ships = Some (log, n', b') →
  (∃ ks, length ks = length ships ∧ log = checks_of ships ks) ∧
  size b' = size b ∧ isLocked b' = isLocked b ∧
  shipsCollection b' = shipsCollection b ∧
  (∀ i, Ship.length (heap b' i) = Ship.length (heap b i)) ∧
  (∀ other, other ∉ ships → same_placement (heap b other) (heap b' other)) ∧
  (∀ ship, ship ∈ ships → accepted check rnd b ship b').
Proof.
  intros HF. revert n b log n' b'.
  induction ships as [|a ships IH]; intros n b log n' b' Hrun.
  - injection Hrun as <- <- <-.
    split_and!; [by exists []|done..| |].
    + intros. apply same_placement_refl.
    + intros ship Hin. by apply elem_of_nil in Hin.
  - cbn [placeShips] in Hrun.
    destruct (placeShip check fuel rnd n b a) as [[[log1 n1] b1]|] eqn:H1;
      [|done].
    destruct (placeShips check fuel rnd n1 b1 ships)
      as [[[log2 n2] b2]|] eqn:H2; [|done].
    injection Hrun as <- <- <-.
    destruct (placeShip_spec _ _ _ _ _ _ _ _ _ HF H1)
      as ([k ->] & Hsz1 & Hl1 & Hc1 & Hlens1 & Ho1 & Hacc1).
    destruct (IH _ _ _ _ _ H2)
      as ((ks & Hks & ->) & Hsz2 & Hl2 & Hc2 & Hlens2 & Ho2 & Hacc2).
    split_and!.
    + exists (k :: ks). split; [simpl; by rewrite Hks|].
      simpl. by rewrite <-app_assoc.
    + congruence.
    + congruence.
    + congruence.
    + intros i. by rewrite Hlens2.
    + intros other Hn. apply not_elem_of_cons in Hn as [Hne Hn].
      eapply same_placement_trans; eauto.
    + intros ship Hin. destruct (decide (ship ∈ ships)) as [Hs|Hs].
      * destruct (Hacc2 ship Hs)
          as (bk & m & b3 & Hbsz & Hbl & Hblen & Hchk & Hsame).
        exists bk, m, b3. split_and!; try done; try congruence.
      * apply elem_of_cons in Hin as [->|?]; [|done].
        destruct Hacc1 as (bk & m & b3 & Hbsz & Hbl & Hblen & Hchk & Hsame).
        exists bk, m, b3. split_and!; try done.
        eapply same_placement_trans; [done|]. by apply Ho2.
Qed.

Lemma unplaceAll_heap_fold (l : list ShipId) (h : ShipId → Ship.t) i :
  foldl (λ h ship, <[ship := Ship.set_position (null, null) (h ship)]> h) h l i
  = if decide (i ∈ l) then Ship.set_position (null, null) (h i) else h i.
Proof.
  revert h. induction l as [|a l IH]; intros h; simpl.
  - destruct (decide (i ∈ [])) as [Hi|Hi]; [by apply elem_of_nil in Hi|done].
  - rewrite IH. destruct (decide (i = a)) as [->|Hne].
    + rewrite fn_lookup_insert.
      destruct (decide (a ∈ a :: l)) as [Hj|Hj]; [|exfalso; apply Hj; by left].
      by destruct (decide (a ∈ l)).
    + rewrite fn_lookup_insert_ne by done.
      destruct (decide (i ∈ l)) as [Hi|Hi], (decide (i ∈ a :: l)) as [Hj|Hj];
        try done; exfalso; [apply Hj; by right|].
      apply Hi. by apply elem_of_cons in Hj as [?|?].
Qed.

Lemma random_spec check fuel rnd b log b' :
  check_keeps_placement check →
  random check fuel rnd b = Some (log, b') →
  (∃ n, placeShips check fuel rnd 0 (unplaceAll b)
          (reverse (shipsCollection b)) = Some (log, n, b')) ∧
  (∃ ks, length ks = length (shipsCollection b) ∧
         log = checks_of (reverse (shipsCollection b)) ks) ∧
  size b' = size b ∧ isLocked b' = isLocked b ∧
  shipsCollection b' = shipsCollection b ∧
  (∀ ship, ship ∈ shipsCollection b → accepted check rnd b ship b').
Proof.
  intros HF Hrun. unfold random in Hrun.
  destruct (placeShips check fuel rnd 0 (unplaceAll b)
              (reverse (shipsCollection b)))
    as [[[log0 n0] b0]|] eqn:Hloop; [|done].
  injection Hrun as -> ->.
  destruct (placeShips_spec _ _ _ _ _ _ _ _ _ HF Hloop)
    as ((ks & Hks & ->) & Hsz & Hl & Hcoll & _ & _ & Hacc).
  split_and!; try done.
  - by exists n0.
  - exists ks. by rewrite <-(length_reverse (shipsCollection b)).
  - intros ship Hs.
    destruct (Hacc ship) as (bk & m & b1 & Hbsz & Hbl & Hblen & Hchk & Hsame).
    { by rewrite elem_of_reverse. }
    exists bk, m, b1. split_and!; try done.
    rewrite Hblen. unfold unplaceAll. simpl. rewrite unplaceAll_heap_fold.
    by case_decide.
Qed.

Lemma accepted_in_bounds check rnd b ship b' :
  check_keeps_placement check →
  size b' = size b →
  accepted check rnd b ship b' →
  (∀ bk m b1, size bk = size b → isLocked bk = isLocked b →
              Ship.length (heap bk ship) = Ship.length (heap b ship) →
              check (attempt rnd m bk ship) ship = Some (false, b1) →
              placed_in_bounds (attempt rnd m bk ship) ship) →
  placed_in_bounds b' ship.
Proof.
  intros HF Hsz (bk & m & b1 & Hbsz & Hbl & Hblen & Hchk & Hsame) Hin.
  destruct (HF _ _ _ _ Hchk) as (Hsz1 & _ & _ & Hsame1).
  destruct (attempt_frame rnd m bk ship) as (Hsza & _).
  apply (placed_in_bounds_same b1); [congruence|done|].
  apply (placed_in_bounds_same (attempt rnd m bk ship)); [done|apply Hsame1|].
  by eapply Hin.
Qed.



Lemma rnd_script_in_range script : in_range (rnd_script script).
Proof. intros n min max Hle. unfold rnd_script. lia. Qed.



(** * Further properties of the battlefield *)

(** ** The index: lookup and creation *)

(** X1.  [_getFieldOrCreate] returns the field stored under the position's
    key, a new empty field when there was none; afterwards [getField] finds
    exactly that field, every other entry of the index is as before, and a
    second call returns the same field and creates nothing. *)
Theorem getFieldOrCreate_lookup fs position :
  let field := (_getFieldOrCreate fs position).1 in
  let fs' := (_getFieldOrCreate fs position).2 in
  field = default (Field.new position) (fs !! join_x position) ∧
  fs' !! join_x position = Some field ∧
  dom fs' = {[join_x position]} ∪ dom fs ∧
  fs' = <[join_x position := field]> fs ∧
  _getFieldOrCreate fs' position = (field, fs').
Proof.
  unfold _getFieldOrCreate, Field.id.
  destruct (fs !! join_x position) as [f|] eqn:Hf; simpl.
  - rewrite Hf. split_and!; try done.
    + apply set_eq. intros k. rewrite elem_of_union, elem_of_singleton.
      split; [tauto|]. intros [->|?]; [|done]. by apply elem_of_dom.
    + by rewrite insert_id.
  - rewrite lookup_insert_eq. split_and!; try done. by rewrite dom_insert_L.
Qed.

Lemma markAs_fields b position type :
  _fields (markAs b position type) =
  <[join_x position :=
      (if looseEq_missed type then Field.markAsMissed else Field.markAsHit)
        (default (Field.new position) (_fields b !! join_x position))]>
    (_fields b).
Proof.
  unfold markAs, markAsMissed, markAsHit, _getFieldOrCreate, Field.id.
  destruct (looseEq_missed type),
    (_fields b !! join_x position) as [f|] eqn:Hf;
    simpl; try done; by rewrite insert_insert_eq.
Qed.

(** X2.  [markAs] does not look at [isLocked].  It leaves under the
    position's key the field that was there (a new one when there was none)
    with its marker set, to missed for the type ['missed'] and to hit for
    any other; no other entry of the index changes, exactly that key joins
    the index, no ship object, size, lock or collection changes, and one
    event carrying the position is fired. *)
Theorem markAs_effect b position type :
  let b' := markAs b position type in
  let missed := looseEq_missed type in
  getField b' position =
    Some ((if missed then Field.markAsMissed else Field.markAsHit)
            (default (Field.new position) (getField b position))) ∧
  _fields b' = <[join_x position := default (Field.new position)
                                       (getField b' position)]> (_fields b) ∧
  dom (_fields b') = {[join_x position]} ∪ dom (_fields b) ∧
  heap b' = heap b ∧ size b' = size b ∧ isLocked b' = isLocked b ∧
  shipsCollection b' = shipsCollection b ∧
  fired b' = fired b ++ [if missed then EvMissed position else EvHit position].
Proof.
  intros b' missed. subst b' missed. unfold getField.
  rewrite markAs_fields, lookup_insert_eq. simpl.
  split_and!; try done.
  - by rewrite dom_insert_L.
  - unfold markAs, markAsMissed, markAsHit.
    by destruct (looseEq_missed type), (_getFieldOrCreate _ _).
  - unfold markAs, markAsMissed, markAsHit.
    by destruct (looseEq_missed type), (_getFieldOrCreate _ _).
  - unfold markAs, markAsMissed, markAsHit.
    by destruct (looseEq_missed type), (_getFieldOrCreate _ _).
  - unfold markAs, markAsMissed, markAsHit.
    by destruct (looseEq_missed type), (_getFieldOrCreate _ _).
  - unfold markAs. destruct (looseEq_missed type).
    + apply markAsMissed_fired.
    + apply markAsHit_fired.
Qed.

(** X3.  Marking the same position twice leaves the index that the second
    marking alone would leave: the last marker wins and no second field is
    created. *)
Theorem markAs_last_wins b position type1 type2 :
  _fields (markAs (markAs b position type1) position type2) =
  _fields (markAs b position type2).
Proof.
  rewrite !markAs_fields, lookup_insert_eq, insert_insert_eq. simpl.
  f_equal.
  by destruct (looseEq_missed type1), (looseEq_missed type2),
    (_fields b !! join_x position).
Qed.

(** X4.  Markings of two different positions commute as far as lookups go:
    after either order [getField] finds the same field at every position.
    (The order in which the iteration yields the fields is not covered: it
    follows the order of insertion, which differs.) *)
Theorem markAs_commute b p q type1 type2 :
  p ≠ q →
  ∀ pos, getField (markAs (markAs b p type1) q type2) pos =
         getField (markAs (markAs b q type2) p type1) pos.
Proof.
  intros Hne pos.
  assert (join_x p ≠ join_x q) as Hk by (intros Heq; by apply Hne, join_x_inj).
  unfold getField. f_equal.
  rewrite !markAs_fields, !lookup_insert_ne by done.
  by apply insert_insert_ne.
Qed.

Lemma markAs_commute_witness :
  getField (markAs (markAs board5 (0, 0)%Z (JString "hit")) (1, 0)%Z
              (JString "missed")) (0, 0)%Z =
  getField (markAs (markAs board5 (1, 0)%Z (JString "missed")) (0, 0)%Z
              (JString "hit")) (0, 0)%Z.
Proof.
  apply (markAs_commute board5 (0, 0)%Z (1, 0)%Z). intros [=].
Defined.

(** ** What [moveShip] leaves alone *)

(** X5.  Locked or not, [moveShip] keeps the size, the lock and the
    collection; of the ship objects it can change only the moved one, and of
    that one neither the length nor the collision flag (no collision is
    checked here); it fires [shipMoved] once, unless the battlefield is
    locked. *)
Theorem moveShip_frame b ship position isRotated :
  let b' := moveShip b ship position isRotated in
  size b' = size b ∧ isLocked b' = isLocked b ∧
  shipsCollection b' = shipsCollection b ∧
  (∀ other, heap b' other =
            if decide (other = ship) then heap b' ship else heap b other) ∧
  Ship.length (heap b' ship) = Ship.length (heap b ship) ∧
  Ship.isCollision (heap b' ship) = Ship.isCollision (heap b ship) ∧
  fired b' = (if isLocked b then fired b else fired b ++ [EvShipMoved ship]).
Proof.
  intros b'. subst b'.
  rewrite moveShip_size, moveShip_isLocked, moveShip_shipsCollection.
  split_and!; try done.
  - intros other. case_decide as Ho; [by subst|].
    by apply moveShip_heap_other.
  - destruct (isLocked b) eqn:Hl; [by rewrite moveShip_locked|].
    by rewrite moveShip_heap_same.
  - destruct (isLocked b) eqn:Hl; [by rewrite moveShip_locked|].
    by rewrite moveShip_heap_same.
  - destruct (isLocked b) eqn:Hl; [by rewrite moveShip_locked|].
    by rewrite moveShip_unlocked.
Qed.

Lemma singleton_list_elems (l : list ShipId) a c :
  length l = 1 → a ∈ l → c ∈ l → a = c.
Proof.
  destruct l as [|x [|y l]]; try done. intros _ Ha Hc.
  apply list_elem_of_singleton in Ha, Hc. congruence.
Qed.

Lemma vacated_keeps_other ship other f :
  other ≠ ship → other ∈ Field.ships f →
  ∃ g, vacated ship (Some f) = Some g ∧ other ∈ Field.ships g ∧
       Field.marker g = Field.marker f.
Proof.
  intros Hne Hin. simpl. case_decide as Hs; [|by eauto].
  destruct (Nat.eqb_spec (Field.length f) 1) as [Hlen|Hlen].
  - destruct Hne. by eapply singleton_list_elems.
  - eexists. split_and!; [done| |done]. simpl.
    by apply list_elem_of_filter.
Qed.

(** X6.  Moving one ship never changes where another ship is registered:
    under every key, the other ship is an occupant of the field after the
    call exactly when it was before, and a field it occupies keeps its
    marker.  Ships may share fields; nothing is pushed away. *)
Theorem moveShip_keeps_other_ships b ship position isRotated other k :
  other ≠ ship →
  let b' := moveShip b ship position isRotated in
  ((∃ f', _fields b' !! k = Some f' ∧ other ∈ Field.ships f') ↔
   (∃ f, _fields b !! k = Some f ∧ other ∈ Field.ships f)) ∧
  (∀ f, _fields b !! k = Some f → other ∈ Field.ships f →
        ∃ f', _fields b' !! k = Some f' ∧ other ∈ Field.ships f' ∧
              Field.marker f' = Field.marker f).
Proof.
  intros Hne b'. subst b'.
  destruct (isLocked b) eqn:Hl.
  { rewrite moveShip_locked by done. split; [done|]. eauto. }
  assert (∀ f, _fields b !! k = Some f → other ∈ Field.ships f →
            ∃ f', _fields (moveShip b ship position isRotated) !! k = Some f'
                  ∧ other ∈ Field.ships f' ∧ Field.marker f' = Field.marker f)
    as Hkeep.
  { intros f Hf Hin. rewrite moveShip_fields by done.
    set (news := Ship.getCoordinates (committed b ship position isRotated)).
    set (fs1 := foldl (vacate ship) (_fields b)
                  (Ship.getCoordinates (heap b ship))).
    assert (∃ g, fs1 !! k = Some g ∧ other ∈ Field.ships g ∧
                 Field.marker g = Field.marker f) as (g & Hg & Hing & Hm).
    { subst fs1. rewrite foldl_vacate_lookup, Hf.
      case_decide; [by apply vacated_keeps_other|by eauto]. }
    destruct (decide (k ∈ join_x <$> news)) as [Hk|Hk].
    - apply list_elem_of_fmap in Hk as (pos & -> & Hpos).
      rewrite foldl_occupy_lookup, Hg by done. unfold occupied. simpl.
      eexists. split_and!; [done| |].
      + by apply addShip_elem_other.
      + by rewrite addShip_marker.
    - rewrite foldl_occupy_lookup_ne by done. eauto. }
  split; [|done]. split.
  - intros (f' & Hf' & Hin').
    rewrite moveShip_fields in Hf' by done.
    set (news := Ship.getCoordinates (committed b ship position isRotated))
      in *.
    set (fs1 := foldl (vacate ship) (_fields b)
                  (Ship.getCoordinates (heap b ship))) in *.
    assert (∃ g, fs1 !! k = Some g ∧ other ∈ Field.ships g)
      as (g & Hg & Hing).
    { destruct (decide (k ∈ join_x <$> news)) as [Hk|Hk].
      - apply list_elem_of_fmap in Hk as (pos & -> & Hpos).
        rewrite foldl_occupy_lookup in Hf' by done.
        unfold occupied in Hf'. injection Hf' as <-.
        apply addShip_elem_other in Hin'; [|done].
        destruct (fs1 !! join_x pos) as [g|]; simpl in Hin'; [eauto|].
        by apply elem_of_nil in Hin'.
      - rewrite foldl_occupy_lookup_ne in Hf' by done. eauto. }
    subst fs1. rewrite foldl_vacate_lookup in Hg.
    case_decide; [by eapply vacated_elem_other|eauto].
  - intros (f & Hf & Hin). destruct (Hkeep f Hf Hin) as (f' & ? & ? & _).
    eauto.
Qed.

(** Ship 1 lies on [0, 0] and [1, 0], ship 2 on [1, 0] and [2, 0]. *)
Lemma moveShip_keeps_other_ships_witness :
  let b := moveShip (moveShip board5 1 (num 0, num 0) None) 2 (num 1, num 0) None in
  ∃ f', _fields (moveShip b 1 (num 3, num 3) None) !! join_x (1, 0)%Z = Some f'
        ∧ 2 ∈ Field.ships f'.
Proof.
  intros b.
  destruct (moveShip_keeps_other_ships b 1 (num 3, num 3) None 2
              (join_x (1, 0)%Z)) as [Hiff _]; [discriminate|].
  apply Hiff. exists (Field.mk (1, 0)%Z [1; 2] Field.unmarked).
  split; [vm_compute; reflexivity|]. right. left.
Defined.

(** ** [moveShip] followed by [isShipInBound] *)

Lemma clamp_num c max : clamp (num c) max = num (c `min` max).
Proof.
  unfold clamp. simpl. destruct (Z.gtb_spec c max); f_equal; lia.
Qed.

Lemma committed_num b ship x y isRotated :
  committed b ship (num x, num y) isRotated =
  let s := heap b ship in
  let r := default (Ship.isRotated s) isRotated in
  let max := (size b - Z.pos (Ship.length s))%Z in
  Ship.mk (Ship.length s)
    (if r then (num x, num (y `min` max)) else (num (x `min` max), num y))
    r (Ship.isCollision s).
Proof.
  unfold committed. simpl. rewrite !clamp_num.
  by destruct (default (Ship.isRotated (heap b ship)) isRotated).
Qed.

(** X7.  After [moveShip] with an integer coordinate on an unlocked
    battlefield, [isShipInBound] answers (no error), and it answers [true]
    exactly when the ship is not longer than the board, the input component
    on the orientation axis is not negative, and the other input component
    lies in [0, size): the clamp takes care of an over-large component on
    the orientation axis only. *)
Theorem moveShip_in_bounds_iff b ship x y isRotated :
  isLocked b = false →
  let b' := moveShip b ship (num x, num y) isRotated in
  let r := default (Ship.isRotated (heap b ship)) isRotated in
  let c := if r then y else x in
  let d := if r then x else y in
  ∃ v, isShipInBound b' ship = Some v ∧
       (v = true ↔ (Z.pos (Ship.length (heap b ship)) ≤ size b)%Z ∧
                   (0 ≤ c)%Z ∧ (0 ≤ d < size b)%Z).
Proof.
  intros Hl b' r c d. subst b' c d r.
  unfold isShipInBound.
  rewrite moveShip_heap_same, moveShip_size, committed_num by done.
  cbv zeta.
  set (max := (size b - Z.pos (Ship.length (heap b ship)))%Z).
  destruct (default (Ship.isRotated (heap b ship)) isRotated); simpl.
  - rewrite (tail_placed _ x (y `min` max)) by done. simpl.
    destruct (Z.leb_spec 0 x) as [Hx|Hx]; eexists; (split; [done|]).
    + rewrite !andb_true_iff, !Z.leb_le, !Z.ltb_lt. lia.
    + split; [done|lia].
  - rewrite (tail_placed _ (x `min` max) y) by done. simpl.
    destruct (Z.leb_spec 0 (x `min` max)) as [Hx|Hx]; eexists;
      (split; [done|]).
    + rewrite !andb_true_iff, !Z.leb_le, !Z.ltb_lt. lia.
    + split; [done|lia].
Qed.

Lemma moveShip_in_bounds_iff_witness :
  isShipInBound (moveShip board5 3 (num 9, num 4) None) 3 = Some true ∧
  isShipInBound (moveShip board5 3 (num 0, num 5) None) 3 = Some false.
Proof.
  split.
  - destruct (moveShip_in_bounds_iff board5 3 9 4 None) as (v & Hv & Hiff);
      [reflexivity|].
    rewrite Hv. f_equal. apply Hiff. simpl. lia.
  - destruct (moveShip_in_bounds_iff board5 3 0 5 None) as (v & Hv & Hiff);
      [reflexivity|].
    rewrite Hv. f_equal. destruct v; [|reflexivity].
    exfalso. destruct Hiff as [Hiff _]. specialize (Hiff eq_refl).
    simpl in Hiff. lia.
Defined.

(** ** Moving and rotating again *)

(** X8.  The clamp is stable: once [moveShip] has placed a ship at an
    integer coordinate, moving the ship to the position and orientation it
    now has leaves the ship object as it is. *)
Theorem moveShip_to_own_position b ship x y isRotated :
  isLocked b = false →
  let b1 := moveShip b ship (num x, num y) isRotated in
  heap (moveShip b1 ship (Ship.position (heap b1 ship))
          (Some (Ship.isRotated (heap b1 ship)))) ship = heap b1 ship ∧
  heap (moveShip b1 ship (Ship.position (heap b1 ship)) None) ship
  = heap b1 ship.
Proof.
  intros Hl b1.
  assert (isLocked b1 = false) as Hl1
    by (subst b1; by rewrite moveShip_isLocked).
  assert (size b1 = size b) as Hsz by (subst b1; by rewrite moveShip_size).
  rewrite !(moveShip_heap_same b1) by done.
  assert (heap b1 ship = committed b ship (num x, num y) isRotated) as Hs
    by (subst b1; by rewrite moveShip_heap_same).
  rewrite committed_num in Hs. cbv zeta in Hs.
  unfold committed. rewrite Hsz, Hs. simpl.
  destruct (default (Ship.isRotated (heap b ship)) isRotated); simpl;
    rewrite clamp_num, (Z.min_l (_ `min` _)) by lia; by split.
Qed.

Lemma moveShip_to_own_position_witness :
  let b1 := moveShip board5 1 (num 9, num 2) None in
  heap (moveShip b1 1 (Ship.position (heap b1 1)) None) 1 = heap b1 1.
Proof.
  intros b1. apply (moveShip_to_own_position board5 1 9 2 None). reflexivity.
Defined.

(** X9.  Two calls of [rotateShip] on an unlocked battlefield give a placed
    ship its orientation back; each call clamps one component, so the head
    [x, y] ends at [min(x, max), min(y, max)] with max = size - length, which
    is where it was when neither component exceeded max.  Two [shipMoved]
    events are fired. *)
Theorem rotateShip_twice b ship x y :
  isLocked b = false →
  Ship.position (heap b ship) = (num x, num y) →
  let b2 := rotateShip (rotateShip b ship) ship in
  let max := (size b - Z.pos (Ship.length (heap b ship)))%Z in
  Ship.isRotated (heap b2 ship) = Ship.isRotated (heap b ship) ∧
  Ship.position (heap b2 ship) = (num (x `min` max), num (y `min` max)) ∧
  Ship.length (heap b2 ship) = Ship.length (heap b ship) ∧
  fired b2 = fired b ++ [EvShipMoved ship; EvShipMoved ship].
Proof.
  intros Hl Hpos b2 max. subst b2.
  set (b1 := rotateShip b ship). unfold rotateShip.
  assert (isLocked b1 = false) as Hl1
    by (subst b1; unfold rotateShip; by rewrite moveShip_isLocked).
  assert (size b1 = size b) as Hsz
    by (subst b1; unfold rotateShip; by rewrite moveShip_size).
  assert (heap b1 ship =
          committed b ship (num x, num y)
            (Some (negb (Ship.isRotated (heap b ship))))) as Hs.
  { subst b1. unfold rotateShip. by rewrite moveShip_heap_same, Hpos. }
  assert (fired b1 = fired b ++ [EvShipMoved ship]) as Hf.
  { subst b1. unfold rotateShip. by rewrite moveShip_unlocked. }
  rewrite committed_num in Hs. cbv zeta in Hs. simpl in Hs. fold max in Hs.
  rewrite moveShip_heap_same, moveShip_unlocked by done.
  simpl. rewrite Hf, <-app_assoc. simpl.
  unfold committed. rewrite Hsz, Hs. simpl. fold max.
  destruct (Ship.isRotated (heap b ship)); simpl; rewrite clamp_num;
    split_and!; try done; do 2 f_equal; lia.
Qed.

Lemma rotateShip_twice_witness :
  let b := moveShip board5 3 (num 1, num 4) None in
  Ship.position (heap (rotateShip (rotateShip b 3) 3) 3) = (num 1, num 2).
Proof.
  intros b. apply (rotateShip_twice b 3 1 4); reflexivity.
Defined.

(** X10.  [rotateShip] on an unplaced ship that is not longer than the board
    flips its orientation and nothing else: the position stays [null, null],
    the index is untouched, and [shipMoved] is still fired. *)
Theorem rotateShip_unplaced b ship :
  isLocked b = false →
  Ship.position (heap b ship) = (null, null) →
  (Z.pos (Ship.length (heap b ship)) ≤ size b)%Z →
  let b' := rotateShip b ship in
  Ship.position (heap b' ship) = (null, null) ∧
  Ship.isRotated (heap b' ship) = negb (Ship.isRotated (heap b ship)) ∧
  _fields b' = _fields b ∧
  fired b' = fired b ++ [EvShipMoved ship].
Proof.
  intros Hl Hpos Hlen b'. subst b'. unfold rotateShip.
  assert (committed b ship (Ship.position (heap b ship))
            (Some (negb (Ship.isRotated (heap b ship)))) =
          Ship.mk (Ship.length (heap b ship)) (null, null)
            (negb (Ship.isRotated (heap b ship)))
            (Ship.isCollision (heap b ship))) as Hc.
  { unfold committed, clamp. rewrite Hpos. simpl.
    destruct (Z.gtb_spec 0 (size b - Z.pos (Ship.length (heap b ship))));
      [lia|].
    by destruct (Ship.isRotated (heap b ship)). }
  rewrite moveShip_heap_same, moveShip_fields by done.
  rewrite moveShip_unlocked by done. rewrite Hc. simpl.
  split_and!; try done.
  rewrite !getCoordinates_unplaced;
    first [done | unfold Ship.hasPosition; by rewrite Hpos].
Qed.

Lemma rotateShip_unplaced_witness :
  Ship.isRotated (heap (rotateShip board5 1) 1) = true ∧
  _fields (rotateShip board5 1) = ∅.
Proof.
  destruct (rotateShip_unplaced board5 1) as (_ & Hr & Hf & _);
    [reflexivity|reflexivity|simpl; lia|].
  split; [exact Hr|exact Hf].
Defined.

(** ** [validateShips] *)

Lemma isShipInBound_placed_some b ship :
  Ship.hasPosition (heap b ship) = true → is_Some (isShipInBound b ship).
Proof.
  unfold Ship.hasPosition. intros Hp.
  destruct (Ship.position (heap b ship)) as [[|x] [|y]] eqn:Hpos; try done.
  unfold isShipInBound. rewrite (tail_placed _ _ _ Hpos), Hpos. simpl.
  by destruct (0 <=? x)%Z.
Qed.

(** X11.  On ships that all have a position [validateShips] answers (no
    error), and it answers [true] exactly when no ship of the list is
    flagged as colliding and every one passes [isShipInBound]; in
    particular it answers [true] on the empty list. *)
Theorem validateShips_placed b ships :
  Forall (λ ship, Ship.hasPosition (heap b ship) = true) ships →
  ∃ v, validateShips b ships = Some v ∧
       (v = true ↔
        Forall (λ ship, Ship.isCollision (heap b ship) = false ∧
                        isShipInBound b ship = Some true) ships).
Proof.
  induction ships as [|ship ships IH]; intros Hall.
  - exists true. split; [done|]. split; [by constructor|done].
  - apply Forall_cons in Hall as [Hp Hall].
    destruct (IH Hall) as (v & Hv & Hiff). simpl.
    destruct (Ship.isCollision (heap b ship)) eqn:Hc.
    { exists false. split; [done|]. split; [done|].
      intros HF. apply Forall_cons in HF as [[? _] _]. congruence. }
    destruct (isShipInBound_placed_some b ship Hp) as [[] Hb]; rewrite Hb.
    + exists v. split; [done|]. rewrite Hiff, Forall_cons. tauto.
    + exists false. split; [done|]. split; [done|].
      intros HF. apply Forall_cons in HF as [[_ ?] _]. congruence.
Qed.

Lemma validateShips_placed_witness :
  let b := moveShip (moveShip board5 1 (num 0, num 0) None) 3 (num 0, num 6) None in
  validateShips b [1] = Some true ∧ validateShips b [] = Some true.
Proof.
  intros b. split.
  - destruct (validateShips_placed b [1]) as (v & Hv & Hiff).
    + repeat constructor.
    + rewrite Hv. f_equal. apply Hiff. repeat constructor.
  - destruct (validateShips_placed b []) as (v & Hv & Hiff).
    + constructor.
    + rewrite Hv. f_equal. apply Hiff. constructor.
Defined.

(** ** The listener for added ships *)

Lemma moveShip_registers_new_cells b ship position isRotated pos :
  isLocked b = false →
  pos ∈ Ship.getCoordinates (heap (moveShip b ship position isRotated) ship) →
  ∃ f, getField (moveShip b ship position isRotated) pos = Some f ∧
       ship ∈ Field.ships f.
Proof.
  intros Hl Hin. rewrite moveShip_heap_same in Hin by done.
  rewrite moveShip_getField by done. simpl.
  rewrite decide_True by done. eexists. split; [done|]. apply addShip_elem.
Qed.

(** X12.  A ship added to the collection is put on the grid only when it
    comes with a position and the battlefield is unlocked: then it keeps its
    orientation, its head is clamped as by [moveShip], every cell of its
    coordinates gets a field that lists it, and [shipMoved] is fired.  An
    unplaced ship, or any ship added while the battlefield is locked, leaves
    the battlefield as it is. *)
Theorem onShipAdded_effect b ship :
  let b' := onShipAdded b ship in
  (Ship.hasPosition (heap b ship) = false ∨ isLocked b = true → b' = b) ∧
  (Ship.hasPosition (heap b ship) = true → isLocked b = false →
   Ship.hasPosition (heap b' ship) = true ∧
   Ship.isRotated (heap b' ship) = Ship.isRotated (heap b ship) ∧
   length (Ship.getCoordinates (heap b' ship))
     = Pos.to_nat (Ship.length (heap b ship)) ∧
   Forall (λ pos, ∃ f, getField b' pos = Some f ∧ ship ∈ Field.ships f)
     (Ship.getCoordinates (heap b' ship)) ∧
   fired b' = fired b ++ [EvShipMoved ship]).
Proof.
  intros b'. subst b'. unfold onShipAdded. split.
  - intros [Hp|Hl].
    + by rewrite Hp.
    + destruct (Ship.hasPosition (heap b ship)); [|done].
      by apply moveShip_locked.
  - intros Hp Hl. rewrite Hp.
    assert (Ship.hasPosition
              (heap (moveShip b ship (Ship.position (heap b ship))
                       (Some (Ship.isRotated (heap b ship)))) ship) = true)
      as Hp'.
    { rewrite moveShip_heap_same by done. unfold Ship.hasPosition in *.
      destruct (Ship.position (heap b ship)) as [[|x] [|y]] eqn:Hpos;
        try done.
      rewrite committed_num. simpl.
      by destruct (Ship.isRotated (heap b ship)). }
    split_and!.
    + done.
    + by rewrite moveShip_heap_same.
    + rewrite getCoordinates_length by done. by rewrite moveShip_heap_same.
    + apply Forall_forall. intros pos Hin.
      by apply moveShip_registers_new_cells.
    + by rewrite moveShip_unlocked.
Qed.

Lemma onShipAdded_effect_witness :
  Ship.getCoordinates (heap (onShipAdded arriving_board 1) 1)
    = [(3, 1)%Z; (4, 1)%Z] ∧
  Forall (λ pos, ∃ f, getField (onShipAdded arriving_board 1) pos = Some f ∧
                      1 ∈ Field.ships f)
    (Ship.getCoordinates (heap (onShipAdded arriving_board 1) 1)) ∧
  onShipAdded board5 1 = board5.
Proof.
  destruct (onShipAdded_effect arriving_board 1) as [_ Hplaced].
  destruct (onShipAdded_effect board5 1) as [Hnoop _].
  split_and!.
  - reflexivity.
  - apply Hplaced; reflexivity.
  - apply Hnoop. left. reflexivity.
Defined.

(** ** Unique ids *)

Lemma uids_seq n next :
  uids n next = (seq next n, next + n).
Proof.
  revert next. induction n as [|n IH]; intros next; simpl.
  - by rewrite Nat.add_0_r.
  - rewrite IH. f_equal. lia.
Qed.

(** X13.  The first call of [uid()] returns 1 and each call returns one more
    than the call before; so the ids handed out by any number of successive
    calls, in batches or not, are positive and pairwise different. *)
Theorem uids_fresh n m :
  let ids1 := (uids n uid_first).1 in
  let ids2 := (uids m (uids n uid_first).2).1 in
  ids1 = seq 1 n ∧ ids2 = seq (1 + n) m ∧
  NoDup (ids1 ++ ids2) ∧
  Forall (λ id, 1 ≤ id) (ids1 ++ ids2).
Proof.
  intros ids1 ids2. subst ids1 ids2. rewrite !uids_seq. simpl.
  unfold uid_first. split_and!; try done.
  - rewrite <-seq_app. apply NoDup_seq.
  - rewrite <-seq_app. apply Forall_forall. intros id Hid.
    apply elem_of_seq in Hid. lia.
Qed.

(** ** [reset] and a first placement *)

(** X14.  [reset()] does not look at [isLocked] and fires no event.  It
    resets exactly the ships of the collection: a ship object outside the
    collection is left as it is (position included, although the emptied
    index no longer lists it); no ship changes its length; size, lock,
    collection and fired events are kept; and a second [reset()] changes
    nothing more. *)
Theorem reset_frame b :
  let b' := reset b in
  size b' = size b ∧ isLocked b' = isLocked b ∧ fired b' = fired b ∧
  shipsCollection b' = shipsCollection b ∧
  (∀ ship, heap b' ship =
           if decide (ship ∈ shipsCollection b) then Ship.reset (heap b ship)
           else heap b ship) ∧
  (∀ ship, Ship.length (heap b' ship) = Ship.length (heap b ship)) ∧
  _fields (reset b') = _fields b' ∧
  (∀ ship, heap (reset b') ship = heap b' ship).
Proof.
  intros b'. subst b'. unfold reset. simpl.
  split_and!; try done.
  - intros ship. apply reset_heap_fold.
  - intros ship. rewrite reset_heap_fold. by case_decide.
  - intros ship. rewrite !reset_heap_fold. by case_decide.
Qed.

Lemma moveShip_empty_index_lookup b ship position isRotated k f :
  isLocked b = false → _fields b = ∅ →
  _fields (moveShip b ship position isRotated) !! k = Some f ↔
  ∃ pos, pos ∈ Ship.getCoordinates (committed b ship position isRotated) ∧
         k = join_x pos ∧ f = Field.mk pos [ship] Field.unmarked.
Proof.
  intros Hl He. rewrite moveShip_fields by done. split.
  - intros Hf.
    destruct (decide (k ∈ join_x <$> Ship.getCoordinates
                (committed b ship position isRotated))) as [Hk|Hk].
    + apply list_elem_of_fmap in Hk as (pos & -> & Hpos).
      rewrite foldl_occupy_lookup, foldl_vacate_lookup, He in Hf by done.
      rewrite lookup_empty in Hf. exists pos. split_and!; try done.
      case_decide; by injection Hf as <-.
    + rewrite foldl_occupy_lookup_ne, foldl_vacate_lookup, He in Hf by done.
      rewrite lookup_empty in Hf. by case_decide.
  - intros (pos & Hpos & -> & ->).
    rewrite foldl_occupy_lookup, foldl_vacate_lookup, He by done.
    rewrite lookup_empty. by case_decide.
Qed.

(** X15.  On an unlocked battlefield whose index is empty (a new one, or
    one just reset), [moveShip] with an integer coordinate leaves an index
    that holds exactly the ship's cells: [getField] finds on each cell of the
    new coordinates an unmarked field listing only this ship and nothing on
    any other cell, and the iteration over the battlefield yields exactly L
    fields, all of them such fields. *)
Theorem moveShip_on_empty_index b ship x y isRotated :
  isLocked b = false →
  _fields b = ∅ →
  let b' := moveShip b ship (num x, num y) isRotated in
  (∀ pos, getField b' pos =
          if decide (pos ∈ Ship.getCoordinates (heap b' ship))
          then Some (Field.mk pos [ship] Field.unmarked) else None) ∧
  length (iterate b') = Pos.to_nat (Ship.length (heap b ship)) ∧
  Forall (λ f, Field.ships f = [ship] ∧ Field.marker f = Field.unmarked ∧
               Field.position f ∈ Ship.getCoordinates (heap b' ship))
    (iterate b').
Proof.
  intros Hl He b'. subst b'.
  rewrite moveShip_heap_same by done.
  set (s' := committed b ship (num x, num y) isRotated).
  assert (Ship.hasPosition s' = true) as Hp.
  { subst s'. rewrite committed_num. simpl.
    by destruct (default (Ship.isRotated (heap b ship)) isRotated). }
  split_and!.
  - intros pos. unfold getField. case_decide as Hin.
    + apply moveShip_empty_index_lookup; [done..|]. by exists pos.
    + apply eq_None_not_Some. intros [f Hf].
      apply moveShip_empty_index_lookup in Hf as (p & Hp' & Hk & _);
        [|done..].
      apply join_x_inj in Hk as ->. by apply Hin.
  - unfold iterate. rewrite length_fmap, length_map_to_list, <-size_dom.
    assert (dom (_fields (moveShip b ship (num x, num y) isRotated))
            = list_to_set (join_x <$> Ship.getCoordinates s')) as ->.
    { apply set_eq. intros k.
      rewrite elem_of_dom, elem_of_list_to_set, list_elem_of_fmap. split.
      - intros [f Hf].
        apply moveShip_empty_index_lookup in Hf as (p & ? & ? & _);
          [|done..].
        by exists p.
      - intros (p & -> & Hin). eexists.
        apply moveShip_empty_index_lookup; [done..|]. by exists p. }
    rewrite size_list_to_set by apply getCoordinates_keys_NoDup.
    rewrite length_fmap, getCoordinates_length by done.
    subst s'. by rewrite committed_num.
  - apply Forall_forall. intros f Hf. unfold iterate in Hf.
    apply list_elem_of_fmap in Hf as ([k f'] & -> & Hkf).
    apply elem_of_map_to_list in Hkf.
    apply moveShip_empty_index_lookup in Hkf as (p & Hin & _ & ->);
      [|done..].
    by split_and!.
Qed.

Lemma moveShip_on_empty_index_witness :
  let b := reset (moveShip (moveShip board5 1 (num 0, num 0) None)
                    2 (num 1, num 0) None) in
  length (iterate (moveShip b 3 (num 4, num 1) (Some true))) = 3.
Proof.
  intros b.
  apply (moveShip_on_empty_index b 3 4 1 (Some true)); reflexivity.
Defined.

(** ** The start of [random()] *)

(** X16.  Before it draws anything [random()] empties the index and sets
    the position of every ship of the collection to [null, null], whether or
    not the battlefield is locked.  Unlike [reset()] it keeps each ship's
    orientation and collision flag; ships outside the collection, the lock
    and the fired events are not touched, and with an empty collection
    [random()] ends at once, without a draw or a check. *)
Theorem random_start b :
  let b0 := unplaceAll b in
  _fields b0 = ∅ ∧
  (∀ ship, heap b0 ship =
           if decide (ship ∈ shipsCollection b)
           then Ship.set_position (null, null) (heap b ship)
           else heap b ship) ∧
  (∀ ship, Ship.isRotated (heap b0 ship) = Ship.isRotated (heap b ship) ∧
           Ship.isCollision (heap b0 ship) = Ship.isCollision (heap b ship) ∧
           Ship.length (heap b0 ship) = Ship.length (heap b ship)) ∧
  isLocked b0 = isLocked b ∧ size b0 = size b ∧ fired b0 = fired b ∧
  (∀ check fuel rnd,
     random check fuel rnd (mkBattlefield (size b) (isLocked b) []
                              (_fields b) (heap b) (fired b))
     = Some ([], mkBattlefield (size b) (isLocked b) [] ∅ (heap b)
                   (fired b))).
Proof.
  intros b0. subst b0. unfold unplaceAll. simpl.
  split_and!; try done.
  - intros ship. apply unplaceAll_heap_fold.
  - intros ship. rewrite unplaceAll_heap_fold. by case_decide.
Qed.

(** ** [random()] and the clamp *)

Lemma overlap_check_keeps_placement : check_keeps_placement overlap_check.
Proof.
  intros b ship collision b'. unfold overlap_check. intros [= _ <-].
  by split_and!.
Qed.

(** X17.  Whatever the absent collision check tests, as long as it changes
    nothing but collision flags: on an unlocked battlefield whose collection
    holds no ship longer than the board, with a random source that answers
    within the range asked for, every ship of the collection has a position
    and is in bounds when [random()] terminates.  The draws in
    [0, size - 1] and the clamp of [moveShip] ensure it on their own. *)
Theorem random_in_bounds_by_clamp check fuel rnd b log b' :
  check_keeps_placement check →
  in_range rnd →
  isLocked b = false →
  (∀ ship, ship ∈ shipsCollection b →
           (Z.pos (Ship.length (heap b ship)) ≤ size b)%Z) →
  random check fuel rnd b = Some (log, b') →
  Forall (λ ship, Ship.hasPosition (heap b' ship) = true ∧
                  isShipInBound b' ship = Some true)
    (shipsCollection b').
Proof.
  intros HF Hrnd Hl Hlen Hrun.
  destruct (random_spec _ _ _ _ _ _ HF Hrun)
    as (_ & _ & Hsz & _ & Hcoll & Hacc).
  apply Forall_forall. intros ship Hs. rewrite Hcoll in Hs.
  apply (accepted_in_bounds check rnd b); [done..|by apply Hacc|].
  intros bk m b1 Hbsz Hbl Hblen _. unfold attempt.
  specialize (Hlen ship Hs).
  apply moveShip_drawn_in_bounds.
  - congruence.
  - by rewrite Hblen, Hbsz.
  - apply Hrnd. lia.
  - apply Hrnd. lia.
Qed.

Lemma random_in_bounds_by_clamp_witness :
  ∃ log b',
    random overlap_check 2 (rnd_script sample_script) fleet_board
      = Some (log, b') ∧
    log = [(3, false); (1, true); (1, false)] ∧
    Forall (λ ship, Ship.hasPosition (heap b' ship) = true ∧
                    isShipInBound b' ship = Some true)
      (shipsCollection b').
Proof.
  eexists _, _. split; [vm_compute; reflexivity|].
  split; [reflexivity|].
  eapply (random_in_bounds_by_clamp overlap_check 2
            (rnd_script sample_script) fleet_board).
  - apply overlap_check_keeps_placement.
  - apply rnd_script_in_range.
  - reflexivity.
  - intros ship Hs.
    apply elem_of_cons in Hs as [->|Hs]; [vm_compute; discriminate|].
    apply elem_of_cons in Hs as [->|Hs]; [vm_compute; discriminate|].
    by apply elem_of_nil in Hs.
  - vm_compute. reflexivity.
Defined.
